(** * Optical spectrum analyzer: the quality metrics and defect detection engine

    A shallow embedding of [src/quality_classifier.py] (class
    [QualityClassifier]) together with the numpy operations it calls, and the
    properties of the metrics engine, the defect detector and the grade
    classification stated over that embedding.

    Number model.  numpy's float64 arrays are modelled as lists of exact
    rationals ([Q]).  Rounding, infinities and NaN are outside the model: a
    division by zero, which numpy answers with [inf] or [nan] and a warning,
    is [0] here, so concrete runs below use strictly increasing wavelengths
    and non-empty means.  Exceptions raised by numpy are modelled: every
    operation that can raise returns a [result]. *)

From Stdlib Require Import String.
From Stdlib Require Import QArith Qabs Qminmax Lqa ZArith List Bool Arith Lia.
From Stdlib Require Import Sorted.
Import ListNotations.

(** ** Exceptions and results *)

(** The Python exception classes that the modelled code can raise are
    [ValueError] and [IndexError].  [InvalidInput] is the error kind of the
    specification; the classifier defines no such class and no operation
    below constructs it. *)
Inductive exn : Type :=
| ValueError
| IndexError
| InvalidInput.

Inductive result (A : Type) : Type :=
| Ok (a : A)
| Err (e : exn).

Arguments Ok {A} a.
Arguments Err {A} e.

Definition bind {A B : Type} (r : result A) (k : A -> result B) : result B :=
  match r with
  | Ok a => k a
  | Err e => Err e
  end.

Declare Scope result_scope.
Delimit Scope result_scope with result.
Notation "x <- r ;; k" := (bind r (fun x => k))
  (at level 61, r at next level, right associativity) : result_scope.
Open Scope result_scope.

(** ** Comparisons on floats *)

Definition Qleb (a b : Q) : bool := Qle_bool a b.
Definition Qltb (a b : Q) : bool := negb (Qle_bool b a).
Definition Qgeb (a b : Q) : bool := Qleb b a.
Definition Qgtb (a b : Q) : bool := Qltb b a.

(** ** The numpy operations used by the classifier *)

Module Np.

(** [a\[i\]] for a non-negative index. *)
Definition getitem {A : Type} (a : list A) (i : nat) : result A :=
  match nth_error a i with
  | Some x => Ok x
  | None => Err IndexError
  end.

(** [a\[-1\]]. *)
Definition getlast {A : Type} (a : list A) : result A :=
  match a with
  | [] => Err IndexError
  | _ :: _ => getitem a (length a - 1)
  end.

Definition sum (a : list Q) : Q := fold_left Qplus a 0.

(** [np.max]: a zero-size array has no maximum. *)
Definition max (a : list Q) : result Q :=
  match a with
  | [] => Err ValueError
  | x :: rest => Ok (fold_left (fun m y => if Qltb m y then y else m) rest x)
  end.

(** [np.argmax]: the first index at which the maximum occurs. *)
Fixpoint argmax_from (rest : list Q) (i best : nat) (m : Q) : nat :=
  match rest with
  | [] => best
  | y :: rest' =>
      if Qltb m y then argmax_from rest' (S i) i y
      else argmax_from rest' (S i) best m
  end.

Definition argmax (a : list Q) : result nat :=
  match a with
  | [] => Err ValueError
  | x :: rest => Ok (argmax_from rest 1 0 x)
  end.

(** [mask.any()]. *)
Definition any (mask : list bool) : bool := existsb (fun b => b) mask.

(** [np.where(mask)\[0\]]: the indices that hold [True], ascending. *)
Fixpoint where_from (i : nat) (mask : list bool) : list nat :=
  match mask with
  | [] => []
  | b :: rest => if b then i :: where_from (S i) rest else where_from (S i) rest
  end.

Definition where_ (mask : list bool) : list nat := where_from 0 mask.

(** [a\[mask\]] for a boolean mask: the mask must have the length of [a]. *)
Fixpoint select {A : Type} (a : list A) (mask : list bool) : list A :=
  match a, mask with
  | x :: a', b :: mask' => if b then x :: select a' mask' else select a' mask'
  | _, _ => []
  end.

Definition getmask {A : Type} (a : list A) (mask : list bool) : result (list A) :=
  if Nat.eqb (length a) (length mask) then Ok (select a mask)
  else Err IndexError.

(** [np.mean].  On an empty array numpy returns [nan] with a warning; the
    classifier reaches [np.mean] only with non-empty arrays. *)
Definition mean (a : list Q) : Q := sum a / inject_Z (Z.of_nat (length a)).

(** [np.std] (population standard deviation), over a square root [sqrt]. *)
Definition std (sqrt : Q -> Q) (a : list Q) : Q :=
  let m := mean a in
  sqrt (mean (map (fun x => Qabs (x - m) * Qabs (x - m)) a)).

(** [np.diff]. *)
Fixpoint diff (a : list Q) : list Q :=
  match a with
  | x :: ((y :: _) as rest) => (y - x) :: diff rest
  | _ => []
  end.

(** [np.ones(n) / n]. *)
Definition ones_over (n : nat) : list Q :=
  repeat (1 / inject_Z (Z.of_nat n)) n.

(** Element-wise [a - b] of one-dimensional arrays, with numpy's
    broadcasting: equal lengths, or one operand of length one. *)
Definition sub (a b : list Q) : result (list Q) :=
  if Nat.eqb (length a) (length b) then
    Ok (map (fun p => fst p - snd p) (combine a b))
  else match a, b with
       | [x], _ => Ok (map (fun y => x - y) b)
       | _, [y] => Ok (map (fun x => x - y) a)
       | _, _ => Err ValueError
       end.

(** *** [np.gradient(f, x)] with coordinates, [edge_order = 1] *)

(** Interior points for evenly spaced coordinates (spacing [h]). *)
Fixpoint interior_uniform (h : Q) (f : list Q) : list Q :=
  match f with
  | f0 :: ((_ :: f2 :: _) as rest) =>
      ((f2 - f0) / (2 * h)) :: interior_uniform h rest
  | _ => []
  end.

(** Interior points for unevenly spaced coordinates: numpy's second order
    formula [a * f\[:-2\] + b * f\[1:-1\] + c * f\[2:\]]. *)
Fixpoint interior_nonuniform (f dx : list Q) : list Q :=
  match f, dx with
  | f0 :: ((f1 :: f2 :: _) as rest), dx1 :: ((dx2 :: _) as dx') =>
      let a := - dx2 / (dx1 * (dx1 + dx2)) in
      let b := (dx2 - dx1) / (dx1 * dx2) in
      let c := dx1 / (dx2 * (dx1 + dx2)) in
      (a * f0 + b * f1 + c * f2) :: interior_nonuniform rest dx'
  | _, _ => []
  end.

(** The one-sided differences at the two ends. *)
Definition edge_first (f : list Q) (dx0 : Q) : Q :=
  (nth 1 f 0 - nth 0 f 0) / dx0.

Definition edge_last (f : list Q) (dxn : Q) : Q :=
  (nth (length f - 1) f 0 - nth (length f - 2) f 0) / dxn.

Definition gradient (f x : list Q) : result (list Q) :=
  if negb (Nat.eqb (length x) (length f)) then Err ValueError
  else
    let diffx := diff x in
    match diffx with
    | [] => Err IndexError            (* [diffx\[0\]] *)
    | d0 :: _ =>
        if Nat.ltb (length f) 2 then Err ValueError
        else if forallb (fun d => Qeq_bool d d0) diffx then
          Ok (edge_first f d0 :: interior_uniform d0 f ++ [edge_last f d0])
        else
          Ok (edge_first f d0 :: interior_nonuniform f diffx
                ++ [edge_last f (last diffx 0)])
    end.

(** *** [np.convolve(a, v, mode='same')] *)

(** The full discrete convolution, [(a * v)\[k\] = sum_m a\[k-m\] v\[m\]]. *)
Definition convolve_at (a v : list Q) (k : nat) : Q :=
  sum (map (fun m => if Nat.leb m k then nth (k - m) a 0 * nth m v 0 else 0)
           (seq 0 (length v))).

Definition convolve_full (a v : list Q) : list Q :=
  map (convolve_at a v) (seq 0 (length a + length v - 1)).

(** Mode [same]: the operands are swapped when [v] is the longer one, and
    the central [max(M, N)] entries of the full convolution are returned. *)
Definition convolve_same (a v : list Q) : result (list Q) :=
  match a, v with
  | [], _ => Err ValueError
  | _, [] => Err ValueError
  | _, _ =>
      let (a', v') := if Nat.ltb (length a) (length v) then (v, a) else (a, v) in
      Ok (firstn (length a') (skipn ((length v' - 1) / 2) (convolve_full a' v')))
  end.

End Np.

(** ** Data model *)

Inductive QualityGrade : Type :=
| EXCELLENT
| GOOD
| FAIR
| POOR.

(** The [value] of each member of the enumeration. *)
Definition QualityGrade_value (g : QualityGrade) : string :=
  match g with
  | EXCELLENT => "Excellent"
  | GOOD => "Good"
  | FAIR => "Fair"
  | POOR => "Poor"
  end.

(** A diagnostic note.  The notes built from an f-string that formats a
    float keep the formatted values as data. *)
Inductive note : Type :=
| NoteVisibleNotCovered                   (* "Visible range not covered in spectrum" *)
| NoteDetected (defect_count : nat)       (* "Detected {defect_count} potential defects" *)
| NoteBelowThreshold (avg_visible visible_threshold : Q)
                                          (* "Below transmission threshold (..% < ..%)" *)
| NoteFailedDefects.                      (* "Failed due to detected defects" *)

Record QualityMetrics : Type := mkQualityMetrics {
  sample_id : string;
  material_type : string;
  peak_transmission : Q;
  avg_transmission_visible : Q;
  avg_transmission_full : Q;
  transmission_bandwidth_nm : Q;
  uniformity_score : Q;
  defect_count : nat;
  defect_locations : list Q;
  quality_grade : QualityGrade;
  pass_qc : bool;
  notes : list note
}.

(** The two configured thresholds of a [QualityClassifier] instance. *)
Record QualityClassifier : Type := mkQualityClassifier {
  visible_threshold : Q;
  bandwidth_threshold : Q
}.

Definition default_classifier : QualityClassifier :=
  mkQualityClassifier 80 80.

(** Class constants. *)
Definition VISIBLE_RANGE : Q * Q := (400, 700).

Definition GRADE_THRESHOLDS (g : QualityGrade) : Q :=
  match g with
  | EXCELLENT => 90
  | GOOD => 80
  | FAIR => 70
  | POOR => 0
  end.

Definition DEFECT_DROP_THRESHOLD : Q := 1 # 10.
Definition DEFECT_GRADIENT_THRESHOLD : Q := 1 # 2.

(** ** Python helpers *)

(** [sorted] on a list of floats: a stable insertion sort. *)
Fixpoint insert_sorted (x : Q) (l : list Q) : list Q :=
  match l with
  | [] => [x]
  | y :: rest => if Qleb x y then x :: l else y :: insert_sorted x rest
  end.

Fixpoint sorted (l : list Q) : list Q :=
  match l with
  | [] => []
  | x :: rest => insert_sorted x (sorted rest)
  end.

(** Python's [max(0, v)] on two arguments: the first one unless the second
    is strictly greater. *)
Definition py_max (a b : Q) : Q := if Qltb a b then b else a.

(** Apply a fallible function to every element, left to right. *)
Fixpoint mapM {A B : Type} (f : A -> result B) (l : list A) : result (list B) :=
  match l with
  | [] => Ok []
  | x :: rest => y <- f x ;; ys <- mapM f rest ;; Ok (y :: ys)
  end.

(** ** The classifier *)

(** *** [_classify_grade] *)
Definition _classify_grade (avg_transmission : Q) : QualityGrade :=
  if Qgeb avg_transmission (GRADE_THRESHOLDS EXCELLENT) then EXCELLENT
  else if Qgeb avg_transmission (GRADE_THRESHOLDS GOOD) then GOOD
  else if Qgeb avg_transmission (GRADE_THRESHOLDS FAIR) then FAIR
  else POOR.

(** *** [_calculate_bandwidth] *)
Definition _calculate_bandwidth (wavelength transmission : list Q) (threshold : Q)
  : result Q :=
  let above_threshold := map (fun t => Qgeb t threshold) transmission in
  if negb (Np.any above_threshold) then Ok 0
  else
    let indices := Np.where_ above_threshold in
    if Nat.eqb (length indices) 0 then Ok 0
    else
      ilast <- Np.getlast indices ;;
      hi <- Np.getitem wavelength ilast ;;
      ifirst <- Np.getitem indices 0 ;;
      lo <- Np.getitem wavelength ifirst ;;
      Ok (hi - lo).

(** *** [_detect_defects] *)

(** The smoothed gradient: a moving average of window [min(5, len // 10)],
    or the raw gradient when that window is at most one. *)
Definition gradient_smooth (wavelength transmission : list Q) : result (list Q) :=
  gradient <- Np.gradient transmission wavelength ;;
  let window := Nat.min 5 (length gradient / 10) in
  if Nat.ltb 1 window then Np.convolve_same gradient (Np.ones_over window)
  else Ok gradient.

(** The loop that groups the indices of sharp drops: an index joins the
    current cluster when it is less than ten points after the previous one. *)
Fixpoint cluster_loop (prev : nat) (rest : list nat) (current_cluster : list nat)
  (clusters : list (list nat)) : list (list nat) :=
  match rest with
  | [] => clusters ++ [current_cluster]
  | d :: rest' =>
      if (Z.of_nat d - Z.of_nat prev <? 10)%Z
      then cluster_loop d rest' (current_cluster ++ [d]) clusters
      else cluster_loop d rest' [d] (clusters ++ [current_cluster])
  end.

Definition cluster_center (wavelength : list Q) (cluster : list nat) : result Q :=
  center_idx <- Np.getitem cluster (length cluster / 2) ;;
  Np.getitem wavelength center_idx.

(** First pass: [defect_locations] after the gradient clusters are added. *)
Definition gradient_pass (wavelength transmission : list Q) : result (list Q) :=
  smooth <- gradient_smooth wavelength transmission ;;
  let sharp_drops :=
    Np.where_ (map (fun g => Qltb g (- DEFECT_GRADIENT_THRESHOLD)) smooth) in
  match sharp_drops with
  | [] => Ok []
  | d0 :: rest => mapM (cluster_center wavelength) (cluster_loop d0 rest [d0] [])
  end.

(** Second pass, detection: the indices whose transmission lies more than
    ten points under the local mean of a window of twenty samples. *)
Definition absorption_bands (transmission : list Q) : result (list nat) :=
  local_mean <- Np.convolve_same transmission (Np.ones_over 20) ;;
  deviation <- Np.sub transmission local_mean ;;
  Ok (Np.where_ (map (fun d => Qltb d (- DEFECT_DROP_THRESHOLD * 100)) deviation)).

(** [any(abs(wl - loc) < 50 for loc in defect_locations)]. *)
Definition already_detected (wl : Q) (defect_locations : list Q) : bool :=
  existsb (fun loc => Qltb (Qabs (wl - loc)) 50) defect_locations.

(** Second pass, collection: the loop over [absorption_bands], which appends
    to the list [defect_locations] that it also tests against. *)
Fixpoint add_unique_locations (wavelength : list Q) (bands : list nat)
  (defect_locations : list Q) : result (list Q) :=
  match bands with
  | [] => Ok defect_locations
  | idx :: rest =>
      wl <- Np.getitem wavelength idx ;;
      if negb (already_detected wl defect_locations)
      then add_unique_locations wavelength rest (defect_locations ++ [wl])
      else add_unique_locations wavelength rest defect_locations
  end.

Definition _detect_defects (wavelength transmission : list Q) : result (list Q) :=
  defect_locations <- gradient_pass wavelength transmission ;;
  bands <- absorption_bands transmission ;;
  defect_locations <- add_unique_locations wavelength bands defect_locations ;;
  Ok (sorted defect_locations).

(** *** [calculate_metrics] *)

Section Metrics.

(** The square root behind [np.std]. *)
Variable sqrt : Q -> Q.

Variable self : QualityClassifier.

Definition visible_mask (wavelength_nm : list Q) : list bool :=
  map (fun w => Qgeb w (fst VISIBLE_RANGE) && Qleb w (snd VISIBLE_RANGE))
      wavelength_nm.

(** The uniformity score of the visible band. *)
Definition uniformity_of (visible_trans : list Q) : Q :=
  let cv :=
    if Qgtb (Np.mean visible_trans) 0
    then Np.std sqrt visible_trans / Np.mean visible_trans
    else 1 in
  py_max 0 (1 - cv) * 100.

Definition calculate_metrics (wavelength_nm transmission_pct : list Q)
  (sample_id material_type : string) : result QualityMetrics :=
  let notes := [] in
  peak_transmission <- Np.max transmission_pct ;;
  ipeak <- Np.argmax transmission_pct ;;
  peak_wavelength <- Np.getitem wavelength_nm ipeak ;;
  let mask := visible_mask wavelength_nm in
  r <- (if Np.any mask
        then visible <- Np.getmask transmission_pct mask ;;
             Ok (Np.mean visible, notes)
        else Ok (Np.mean transmission_pct, notes ++ [NoteVisibleNotCovered])) ;;
  let avg_visible := fst r in
  let notes := snd r in
  let avg_full := Np.mean transmission_pct in
  bandwidth <- _calculate_bandwidth wavelength_nm transmission_pct
                 (bandwidth_threshold self) ;;
  uniformity <- (if Np.any mask
                 then visible_trans <- Np.getmask transmission_pct mask ;;
                      Ok (uniformity_of visible_trans)
                 else Ok 0) ;;
  defect_locations <- _detect_defects wavelength_nm transmission_pct ;;
  let defect_count := length defect_locations in
  let notes :=
    if Nat.ltb 0 defect_count then notes ++ [NoteDetected defect_count]
    else notes in
  let quality_grade := _classify_grade avg_visible in
  let pass_qc :=
    Qgeb avg_visible (visible_threshold self) && Nat.eqb defect_count 0 in
  let notes :=
    if negb pass_qc then
      let notes :=
        if Qltb avg_visible (visible_threshold self)
        then notes ++ [NoteBelowThreshold avg_visible (visible_threshold self)]
        else notes in
      if Nat.ltb 0 defect_count then notes ++ [NoteFailedDefects] else notes
    else notes in
  Ok (mkQualityMetrics sample_id material_type peak_transmission avg_visible
        avg_full bandwidth uniformity defect_count defect_locations
        quality_grade pass_qc notes).

End Metrics.

(** *** [analyze_dataframe] *)

(** A row of the input [DataFrame], with the three columns the batch
    analysis reads from every frame and the optional [sample_id] column. *)
Module DataRow.
Record t : Type := mk {
  wavelength_nm : Q;
  transmission_percent : Q;
  sample_id : string;
  material_type : string
}.
End DataRow.

(** An input frame.  When [has_sample_id] is [false] the frame has no
    [sample_id] column and the field of that name in its rows is not read. *)
Record DataFrame : Type := mkDataFrame {
  has_sample_id : bool;
  rows : list DataRow.t
}.

(** A row of the table of results. *)
Module ResultRow.
Record t : Type := mk {
  sample_id : string;
  material_type : string;
  peak_transmission_pct : Q;
  avg_visible_transmission_pct : Q;
  transmission_bandwidth_nm : Q;
  uniformity_score : Q;
  defect_count : nat;
  quality_grade : string;
  pass_qc : bool;
  notes : list note
}.
End ResultRow.

(** [Series.unique()]: the distinct values in order of first appearance. *)
Fixpoint unique_from (seen l : list string) : list string :=
  match l with
  | [] => []
  | x :: rest =>
      if existsb (String.eqb x) seen then unique_from seen rest
      else x :: unique_from (x :: seen) rest
  end.

Definition unique (l : list string) : list string := unique_from [] l.

(** The rows of one sample: [df\[df\[sample_col\] == sample\]], or the whole
    frame when there is no [sample_id] column. *)
Definition sample_data (df : DataFrame) (sample : string) : list DataRow.t :=
  if has_sample_id df
  then filter (fun r => String.eqb (DataRow.sample_id r) sample) (rows df)
  else rows df.

(** The dictionary appended to [results] for one record.  The [notes]
    column holds the notes of the record, which the code joins with
    ["; "] into one text. *)
Definition result_row (metrics : QualityMetrics) : ResultRow.t :=
  ResultRow.mk (sample_id metrics) (material_type metrics)
    (peak_transmission metrics) (avg_transmission_visible metrics)
    (transmission_bandwidth_nm metrics) (uniformity_score metrics)
    (defect_count metrics) (QualityGrade_value (quality_grade metrics))
    (pass_qc metrics) (notes metrics).

Section Batch.

Variable sqrt : Q -> Q.
Variable self : QualityClassifier.

(** The body of the loop over the samples. *)
Definition analyze_sample (df : DataFrame) (sample : string)
  : result ResultRow.t :=
  let data := sample_data df sample in
  let wavelength := map DataRow.wavelength_nm data in
  let transmission := map DataRow.transmission_percent data in
  material <- Np.getitem (map DataRow.material_type data) 0 ;;
  metrics <- calculate_metrics sqrt self wavelength transmission sample material ;;
  Ok (result_row metrics).

Definition analyze_dataframe (df : DataFrame) : result (list ResultRow.t) :=
  samples <- (if has_sample_id df
              then Ok (unique (map DataRow.sample_id (rows df)))
              else first <- Np.getitem (map DataRow.material_type (rows df)) 0 ;;
                   Ok [first]) ;;
  mapM (analyze_sample df) samples.

End Batch.

(** ** The data loader: access to the loaded frame *)

(** The state of a [SpectroscopyDataLoader] that its accessors read. *)
Record SpectroscopyDataLoader : Type := mkSpectroscopyDataLoader {
  validate_on_load : bool;
  _loaded_data : option DataFrame
}.

Definition get_sample (self : SpectroscopyDataLoader) (sample_id : string)
  : result DataFrame :=
  match _loaded_data self with
  | None => Err ValueError
  | Some df =>
      if negb (has_sample_id df) then Err ValueError
      else
        let sample_data :=
          filter (fun r => String.eqb (DataRow.sample_id r) sample_id) (rows df) in
        match sample_data with
        | [] => Err ValueError
        | _ :: _ => Ok (mkDataFrame (has_sample_id df) sample_data)
        end
  end.



Definition list_samples (self : SpectroscopyDataLoader) : result (list string) :=
  match _loaded_data self with
  | None => Err ValueError
  | Some df =>
      if negb (has_sample_id df) then Ok []
      else Ok (unique (map DataRow.sample_id (rows df)))
  end.

(** ** Concrete spectra *)

(** A rational approximation of the square root, to six decimals. *)
Definition sqrt_approx (x : Q) : Q :=
  Z.sqrt (Qnum x * 1000000000000 / Zpos (Qden x)) # 1000000.

(** [400, 450, ..., 700] with a dip at the fourth sample. *)
Definition dip_wavelength : list Q := [400; 450; 500; 550; 600; 650; 700].
Definition dip_transmission : list Q := [95; 95; 95; 40; 95; 95; 95].

(** [n] samples from [start] in steps of [step]. *)
Definition arange (start step : Q) (n : nat) : list Q :=
  map (fun i => start + step * inject_Z (Z.of_nat i)) (seq 0 n).

(** Forty samples, 200 nm to 980 nm in steps of 20 nm, flat at 90 % with a
    dip to 75 % at the two neighbouring samples 600 nm and 620 nm. *)
Definition twin_dip_wavelength : list Q := arange 200 20 40.
Definition twin_dip_transmission : list Q :=
  map (fun i => if Nat.eqb i 20 || Nat.eqb i 21 then 75 else 90) (seq 0 40).

(** Twenty samples, 400 nm to 590 nm in steps of 10 nm, flat at 85 %. *)
Definition flat_wavelength : list Q := arange 400 10 20.
Definition flat_transmission : list Q := repeat 85 20.

(** A classifier with a stricter pass threshold than the default. *)
Definition strict_classifier : QualityClassifier := mkQualityClassifier 95 80.

(** A frame of two samples of twenty rows each, ["b"] flat at 85 % and
    ["a"] flat at 60 %, with the rows of the two samples interleaved. *)
Definition two_sample_frame : DataFrame :=
  mkDataFrame true
    (flat_map (fun w => [DataRow.mk w 85 "b" "glass"; DataRow.mk w 60 "a" "acrylic"])
              flat_wavelength).

(** ** Statements that are compared with the code *)

(** The order [Poor < Fair < Good < Excellent] on grades. *)
Definition grade_rank (g : QualityGrade) : nat :=
  match g with
  | POOR => 0
  | FAIR => 1
  | GOOD => 2
  | EXCELLENT => 3
  end.

Definition grade_le (g1 g2 : QualityGrade) : Prop :=
  (grade_rank g1 <= grade_rank g2)%nat.

(** Index [i] of [transmission] holds a value of at least [threshold]. *)
Definition qualifies (threshold : Q) (transmission : list Q) (i : nat) : Prop :=
  exists t, nth_error transmission i = Some t /\ threshold <= t.

Definition first_qualifying (threshold : Q) (transmission : list Q) (i : nat) : Prop :=
  qualifies threshold transmission i /\
  forall k, (k < i)%nat -> ~ qualifies threshold transmission k.

Definition last_qualifying (threshold : Q) (transmission : list Q) (j : nat) : Prop :=
  qualifies threshold transmission j /\
  forall k, (j < k)%nat -> ~ qualifies threshold transmission k.

(** The exceptions numpy and Python raise by themselves. *)
Definition raw_exception (e : exn) : Prop := e = ValueError \/ e = IndexError.

(** A computation that, when it fails, fails with such an exception. *)
Definition raises_only_raw {A : Type} (r : result A) : Prop :=
  forall e, r = Err e -> raw_exception e.

(** The transmission values whose wavelength lies in the visible range
    400 nm to 700 nm, bounds included. *)
Definition in_visible_range (w : Q) : Prop := 400 <= w /\ w <= 700.

Definition in_visible_rangeb (w : Q) : bool := Qle_bool 400 w && Qle_bool w 700.

Definition visible_values (wavelength transmission : list Q) : list Q :=
  map snd (filter (fun p => in_visible_rangeb (fst p))
                  (combine wavelength transmission)).

Definition covers_visible (wavelength : list Q) : Prop :=
  exists w, In w wavelength /\ in_visible_range w.

(** The notes of a record, from the three facts they depend on. *)
Definition notes_of (covered : bool) (avg_visible threshold : Q)
  (defect_count : nat) : list note :=
  (if covered then [] else [NoteVisibleNotCovered])
  ++ (if Nat.ltb 0 defect_count then [NoteDetected defect_count] else [])
  ++ (if Qltb avg_visible threshold
      then [NoteBelowThreshold avg_visible threshold] else [])
  ++ (if Nat.ltb 0 defect_count then [NoteFailedDefects] else []).


(** ** Shape of the clusters *)

(** Successive elements of a list are related by [R]. *)
Fixpoint chain (R : nat -> nat -> Prop) (l : list nat) : Prop :=
  match l with
  | a :: ((b :: _) as rest) => R a b /\ chain R rest
  | _ => True
  end.

(** The test of the clustering loop on two successive sharp drops. *)
Definition gap_below_ten (a b : nat) : Prop :=
  (Z.of_nat b - Z.of_nat a < 10)%Z.

(** Each cluster starts at least ten points after the end of the one
    before it. *)
Fixpoint clusters_apart (clusters : list (list nat)) : Prop :=
  match clusters with
  | c1 :: ((c2 :: _) as rest) =>
      (10 <= Z.of_nat (hd 0%nat c2) - Z.of_nat (last c1 0%nat))%Z /\
      clusters_apart rest
  | _ => True
  end.

(** Forty samples as in [twin_dip_wavelength], flat at 90 % with two single
    dips to 60 % at 400 nm and 800 nm. *)
Definition two_dip_transmission : list Q :=
  map (fun i => if Nat.eqb i 10 || Nat.eqb i 30 then 60 else 90) (seq 0 40).

(** * Properties *)

(** ** Reflection of the comparisons *)

Lemma Qleb_le (a b : Q) : Qleb a b = true <-> a <= b.
Proof. unfold Qleb. apply Qle_bool_iff. Qed.

Lemma Qltb_lt (a b : Q) : Qltb a b = true <-> a < b.
Proof.
  unfold Qltb. rewrite negb_true_iff. split; intro H.
  - apply Qnot_le_lt. intro Hle. apply Qle_bool_iff in Hle. congruence.
  - destruct (Qle_bool b a) eqn:E; [|reflexivity].
    apply Qle_bool_iff in E. exfalso. exact (Qlt_not_le _ _ H E).
Qed.

Lemma Qleb_nle (a b : Q) : Qleb a b = false <-> b < a.
Proof.
  rewrite <- Qltb_lt. unfold Qltb, Qleb.
  destruct (Qle_bool a b); simpl; split; congruence.
Qed.

Lemma Qltb_nlt (a b : Q) : Qltb a b = false <-> b <= a.
Proof.
  rewrite <- Qleb_le. unfold Qltb, Qleb.
  destruct (Qle_bool b a); simpl; split; congruence.
Qed.

Lemma Qgeb_ge (a b : Q) : Qgeb a b = true <-> b <= a.
Proof. unfold Qgeb. apply Qleb_le. Qed.

Lemma Qgeb_nge (a b : Q) : Qgeb a b = false <-> a < b.
Proof. unfold Qgeb. apply Qleb_nle. Qed.

Lemma Qgtb_gt (a b : Q) : Qgtb a b = true <-> b < a.
Proof. unfold Qgtb. apply Qltb_lt. Qed.

(** ** Grade classification *)

Lemma classify_grade_cases (a : Q) :
  (90 <= a /\ _classify_grade a = EXCELLENT) \/
  (80 <= a < 90 /\ _classify_grade a = GOOD) \/
  (70 <= a < 80 /\ _classify_grade a = FAIR) \/
  (a < 70 /\ _classify_grade a = POOR).
Proof.
  unfold _classify_grade, GRADE_THRESHOLDS.
  destruct (Qgeb a 90) eqn:E1.
  { left. apply Qgeb_ge in E1. auto. }
  apply Qgeb_nge in E1.
  destruct (Qgeb a 80) eqn:E2.
  { right; left. apply Qgeb_ge in E2. auto. }
  apply Qgeb_nge in E2.
  destruct (Qgeb a 70) eqn:E3.
  { right; right; left. apply Qgeb_ge in E3. auto. }
  apply Qgeb_nge in E3. right; right; right. auto.
Qed.

(** C7. Grade classification is monotonic: for average visible transmissions
    [a <= b], the grade of [b] is at least the grade of [a] in the order
    Poor < Fair < Good < Excellent. *)
Theorem classify_grade_monotonic (a b : Q) :
  a <= b -> grade_le (_classify_grade a) (_classify_grade b).
Proof.
  intro Hab. unfold grade_le.
  destruct (classify_grade_cases a) as [[Ha Ea]|[[Ha Ea]|[[Ha Ea]|[Ha Ea]]]];
  destruct (classify_grade_cases b) as [[Hb Eb]|[[Hb Eb]|[[Hb Eb]|[Hb Eb]]]];
  rewrite Ea, Eb; simpl; try lia; exfalso; lra.
Qed.

Lemma classify_grade_monotonic_witness :
  85 <= 92 /\ grade_le (_classify_grade 85) (_classify_grade 92).
Proof.
  split; [lra | apply (classify_grade_monotonic 85 92); lra].
Defined.

(** ** Facts about the numpy operations *)

Lemma bind_Ok {A B : Type} (r : result A) (k : A -> result B) (b : B) :
  bind r k = Ok b -> exists a, r = Ok a /\ k a = Ok b.
Proof. destruct r as [a|e]; simpl; intro H; [eauto | discriminate]. Qed.

Ltac inv_bind H :=
  let a := fresh "x" in
  let Ha := fresh "H" a in
  apply bind_Ok in H; destruct H as (a & Ha & H).

Lemma getitem_Ok {A : Type} (a : list A) (i : nat) (x : A) :
  Np.getitem a i = Ok x <-> nth_error a i = Some x.
Proof.
  unfold Np.getitem. destruct (nth_error a i); split; intro H;
    inversion H; subst; reflexivity.
Qed.

Lemma getitem_In {A : Type} (a : list A) (i : nat) (x : A) :
  Np.getitem a i = Ok x -> In x a.
Proof. intro H. apply getitem_Ok in H. eapply nth_error_In; eauto. Qed.

Lemma getitem_lt {A : Type} (a : list A) (i : nat) :
  (i < length a)%nat -> exists x, Np.getitem a i = Ok x.
Proof.
  intro H. unfold Np.getitem.
  destruct (nth_error a i) eqn:E; [eauto|].
  apply nth_error_None in E. lia.
Qed.

Lemma getlast_Ok {A : Type} (a : list A) (x : A) :
  Np.getlast a = Ok x <-> exists a', a = a' ++ [x].
Proof.
  unfold Np.getlast. split.
  - destruct a as [|y a0]; [discriminate|]. intro H. apply getitem_Ok in H.
    destruct (exists_last (l := y :: a0)) as (a' & z & E); [discriminate|].
    rewrite E in *. exists a'. f_equal.
    rewrite length_app in H. simpl in H.
    replace (length a' + 1 - 1)%nat with (length a' + 0)%nat in H by lia.
    rewrite nth_error_app2 in H by lia.
    replace (length a' + 0 - length a')%nat with 0%nat in H by lia.
    simpl in H. congruence.
  - intros (a' & E). subst a. destruct a' as [|y a0]; [reflexivity|].
    simpl app. cbv iota beta. apply getitem_Ok.
    change (y :: a0 ++ [x]) with ((y :: a0) ++ [x]).
    rewrite length_app. simpl length.
    rewrite nth_error_app2 by (simpl; lia).
    replace (S (length a0) + 1 - 1 - length (y :: a0))%nat with 0%nat
      by (simpl; lia).
    reflexivity.
Qed.

(** [np.where]. *)
Lemma where_from_In (mask : list bool) (k i : nat) :
  In i (Np.where_from k mask) <->
  (k <= i)%nat /\ nth_error mask (i - k) = Some true.
Proof.
  revert k. induction mask as [|b mask IH]; intro k; simpl.
  - split; [tauto|]. intros [_ H]. destruct (i - k)%nat; discriminate.
  - assert (Hstep : In i (Np.where_from (S k) mask) <->
                    (k < i)%nat /\ nth_error (b :: mask) (i - k) = Some true).
    { rewrite IH. split; intros [H1 H2]; (split; [lia|]).
      - replace (i - k)%nat with (S (i - S k)) by lia. exact H2.
      - replace (i - k)%nat with (S (i - S k)) in H2 by lia. exact H2. }
    destruct b; simpl; rewrite ?Hstep.
    + split.
      * intros [H|[H1 H2]]; [subst; split; [lia|]|split; [lia|exact H2]].
        replace (i - i)%nat with 0%nat by lia. reflexivity.
      * intros [H1 H2]. destruct (Nat.eq_dec k i); [left; assumption|].
        right. split; [lia|exact H2].
    + split.
      * intros [H1 H2]. split; [lia|exact H2].
      * intros [H1 H2]. split; [|exact H2].
        destruct (Nat.eq_dec k i); [|lia]. subst.
        replace (i - i)%nat with 0%nat in H2 by lia. discriminate.
Qed.

Lemma where_In (mask : list bool) (i : nat) :
  In i (Np.where_ mask) <-> nth_error mask i = Some true.
Proof.
  unfold Np.where_. rewrite where_from_In.
  replace (i - 0)%nat with i by lia. intuition lia.
Qed.

Lemma where_from_sorted (mask : list bool) (k : nat) :
  StronglySorted lt (Np.where_from k mask).
Proof.
  revert k. induction mask as [|b mask IH]; intro k; simpl.
  - constructor.
  - destruct b; [|apply IH]. constructor; [apply IH|].
    apply Forall_forall. intros i Hi. apply where_from_In in Hi. lia.
Qed.

Lemma where_lt (mask : list bool) (i : nat) :
  In i (Np.where_ mask) -> (i < length mask)%nat.
Proof.
  intro H. apply where_In in H. apply nth_error_Some. congruence.
Qed.

Lemma any_true (mask : list bool) :
  Np.any mask = true <-> In true mask.
Proof.
  unfold Np.any. rewrite existsb_exists. split.
  - intros (b & Hb & E). subst. assumption.
  - intro H. exists true. auto.
Qed.

Lemma where_nil_any (mask : list bool) :
  Np.where_ mask = [] -> Np.any mask = false.
Proof.
  intro H. destruct (Np.any mask) eqn:E; [|reflexivity].
  apply any_true in E. apply In_nth_error in E. destruct E as (i & Hi).
  apply where_In in Hi. rewrite H in Hi. contradiction.
Qed.

(** In a strictly ascending list the head is the least element and the
    last element is the greatest. *)
Lemma sorted_head_least (x : nat) (l : list nat) (y : nat) :
  StronglySorted lt (x :: l) -> In y (x :: l) -> (x <= y)%nat.
Proof.
  intros Hs Hy. inversion Hs as [|? ? _ Hall]; subst.
  destruct Hy as [->|Hy]; [lia|].
  rewrite Forall_forall in Hall. specialize (Hall y Hy). lia.
Qed.

Lemma sorted_last_greatest (l : list nat) (x y : nat) :
  StronglySorted lt (l ++ [x]) -> In y (l ++ [x]) -> (y <= x)%nat.
Proof.
  induction l as [|z l IH]; simpl; intros Hs Hy.
  - destruct Hy as [->|[]]. lia.
  - inversion Hs as [|? ? Hs' Hall]; subst.
    destruct Hy as [Hy|Hy]; [subst y|auto].
    rewrite Forall_forall in Hall.
    assert (z < x)%nat by (apply Hall; apply in_or_app; right; left; reflexivity).
    lia.
Qed.

Lemma any_false_where (mask : list bool) :
  Np.any mask = false -> Np.where_ mask = [].
Proof.
  intro H. destruct (Np.where_ mask) as [|i rest] eqn:E; [reflexivity|].
  assert (Hi : In i (Np.where_ mask)) by (rewrite E; left; reflexivity).
  apply where_In in Hi. apply nth_error_In in Hi. apply any_true in Hi.
  congruence.
Qed.

(** ** Bandwidth *)

Lemma above_threshold_qualifies (threshold : Q) (transmission : list Q) (i : nat) :
  In i (Np.where_ (map (fun t => Qgeb t threshold) transmission)) <->
  qualifies threshold transmission i.
Proof.
  rewrite where_In, nth_error_map. unfold qualifies.
  destruct (nth_error transmission i) as [t|]; simpl.
  - split.
    + intro H. exists t. split; [reflexivity|]. apply Qgeb_ge. congruence.
    + intros (t' & E & Ht). inversion E; subst. f_equal. apply Qgeb_ge. exact Ht.
  - split; [discriminate|]. intros (t' & E & _). discriminate.
Qed.

Lemma calculate_bandwidth_none (wavelength transmission : list Q) (threshold : Q) :
  (forall t, In t transmission -> t < threshold) ->
  _calculate_bandwidth wavelength transmission threshold = Ok 0.
Proof.
  intro Hnone. unfold _calculate_bandwidth.
  destruct (Np.any (map (fun t => Qgeb t threshold) transmission)) eqn:E;
    [|reflexivity].
  exfalso. apply any_true in E. apply in_map_iff in E.
  destruct E as (t & Ht & Hin). apply Qgeb_ge in Ht.
  specialize (Hnone t Hin). lra.
Qed.

Lemma calculate_bandwidth_ends (wavelength transmission : list Q) (threshold : Q)
  (ifirst ilast : nat) (rest init : list nat) (lo hi : Q) :
  Np.where_ (map (fun t => Qgeb t threshold) transmission) = ifirst :: rest ->
  Np.where_ (map (fun t => Qgeb t threshold) transmission) = init ++ [ilast] ->
  nth_error wavelength ifirst = Some lo ->
  nth_error wavelength ilast = Some hi ->
  _calculate_bandwidth wavelength transmission threshold = Ok (hi - lo).
Proof.
  intros Ehead Elast Hlo Hhi. unfold _calculate_bandwidth.
  destruct (Np.any (map (fun t => Qgeb t threshold) transmission)) eqn:E.
  2:{ apply any_false_where in E. rewrite E in Ehead. discriminate. }
  simpl negb. cbv iota.
  assert (Hl : Np.getlast (Np.where_ (map (fun t => Qgeb t threshold) transmission))
               = Ok ilast) by (apply getlast_Ok; eauto).
  rewrite Hl. rewrite Ehead. simpl.
  apply getitem_Ok in Hlo, Hhi. rewrite Hhi. simpl. rewrite Hlo. reflexivity.
Qed.

(** C5. The bandwidth is the wavelength at the last index whose transmission
    reaches the threshold minus the wavelength at the first such index,
    whatever lies between them, and it is 0 when no point reaches the
    threshold; on arrays of equal length the computation always returns. *)
Theorem calculate_bandwidth_first_to_last
  (wavelength transmission : list Q) (threshold : Q) :
  (length wavelength = length transmission ->
   exists b, _calculate_bandwidth wavelength transmission threshold = Ok b) /\
  ((forall t, In t transmission -> t < threshold) ->
   _calculate_bandwidth wavelength transmission threshold = Ok 0) /\
  (forall i j lo hi,
     first_qualifying threshold transmission i ->
     last_qualifying threshold transmission j ->
     nth_error wavelength i = Some lo ->
     nth_error wavelength j = Some hi ->
     _calculate_bandwidth wavelength transmission threshold = Ok (hi - lo)) /\
  _calculate_bandwidth [400; 500; 600; 700] [85; 50; 50; 90] 80 = Ok 300.
Proof.
  set (mask := map (fun t => Qgeb t threshold) transmission).
  assert (Hends : forall i j lo hi,
     first_qualifying threshold transmission i ->
     last_qualifying threshold transmission j ->
     nth_error wavelength i = Some lo ->
     nth_error wavelength j = Some hi ->
     _calculate_bandwidth wavelength transmission threshold = Ok (hi - lo)).
  { intros i j lo hi [Hi Hmin] [Hj Hmax] Hlo Hhi.
    pose proof (where_from_sorted mask 0) as Hs. fold (Np.where_ mask) in Hs.
    apply above_threshold_qualifies in Hi, Hj. fold mask in Hi, Hj.
    destruct (Np.where_ mask) as [|h rest] eqn:Ew; [contradiction|].
    destruct (exists_last (l := h :: rest)) as (init & l & El); [discriminate|].
    assert (Hh : h = i).
    { assert (h <= i)%nat by (eapply sorted_head_least; eauto).
      destruct (Nat.eq_dec h i) as [|Hne]; [assumption|]. exfalso.
      apply (Hmin h); [lia|]. apply above_threshold_qualifies. fold mask.
      rewrite Ew. left. reflexivity. }
    assert (Hl : l = j).
    { rewrite El in Hs, Hj.
      assert (j <= l)%nat by (eapply sorted_last_greatest; eauto).
      destruct (Nat.eq_dec l j) as [|Hne]; [assumption|]. exfalso.
      apply (Hmax l); [lia|]. apply above_threshold_qualifies. fold mask.
      rewrite Ew, El. apply in_or_app. right. left. reflexivity. }
    subst h l.
    apply calculate_bandwidth_ends with (ifirst := i) (ilast := j)
      (rest := rest) (init := init); fold mask; congruence. }
  split; [|split; [apply calculate_bandwidth_none|split; [exact Hends|reflexivity]]].
  intro Hlen.
  destruct (Np.where_ mask) as [|h rest] eqn:Ew.
  - exists 0. unfold _calculate_bandwidth. fold mask.
    rewrite (where_nil_any _ Ew). reflexivity.
  - destruct (exists_last (l := h :: rest)) as (init & l & El); [discriminate|].
    assert (Hh : In h (Np.where_ mask)) by (rewrite Ew; left; reflexivity).
    assert (Hl : In l (Np.where_ mask)).
    { rewrite Ew, El. apply in_or_app. right. left. reflexivity. }
    apply where_lt in Hh, Hl. unfold mask in Hh, Hl.
    rewrite length_map, <- Hlen in Hh, Hl.
    destruct (nth_error wavelength h) as [lo|] eqn:Elo;
      [|apply nth_error_None in Elo; lia].
    destruct (nth_error wavelength l) as [hi|] eqn:Ehi;
      [|apply nth_error_None in Ehi; lia].
    exists (hi - lo).
    apply calculate_bandwidth_ends with (ifirst := h) (ilast := l)
      (rest := rest) (init := init); fold mask; congruence.
Qed.

Lemma calculate_bandwidth_first_to_last_witness :
  _calculate_bandwidth [500; 600; 700; 800; 900] [60; 85; 40; 90; 70] 80
  = Ok (800 - 600).
Proof.
  apply (proj1 (proj2 (proj2
          (calculate_bandwidth_first_to_last
             [500; 600; 700; 800; 900] [60; 85; 40; 90; 70] 80)))
          1%nat 3%nat 600 800).
  - split.
    + exists 85. split; [reflexivity|]. unfold Qle; simpl; lia.
    + intros k Hk (t & Ht & Hle). destruct k as [|k]; [|lia].
      simpl in Ht. inversion Ht; subst. revert Hle. unfold Qle; simpl; lia.
  - split.
    + exists 90. split; [reflexivity|]. unfold Qle; simpl; lia.
    + intros k Hk (t & Ht & Hle).
      destruct k as [|[|[|[|[|k]]]]]; try lia.
      * simpl in Ht. inversion Ht; subst. revert Hle. unfold Qle; simpl; lia.
      * destruct k; discriminate.
  - reflexivity.
  - reflexivity.
Defined.

(** ** Sorting *)

Lemma insert_sorted_In (x y : Q) (l : list Q) :
  In y (insert_sorted x l) <-> y = x \/ In y l.
Proof.
  induction l as [|z l IH]; simpl.
  - intuition.
  - destruct (Qleb x z); simpl; [intuition|]. rewrite IH. intuition.
Qed.

Lemma sorted_In (y : Q) (l : list Q) : In y (sorted l) <-> In y l.
Proof.
  induction l as [|x l IH]; simpl; [tauto|].
  rewrite insert_sorted_In, IH. intuition.
Qed.

Lemma insert_sorted_length (x : Q) (l : list Q) :
  length (insert_sorted x l) = S (length l).
Proof.
  induction l as [|z l IH]; simpl; [reflexivity|].
  destruct (Qleb x z); simpl; [reflexivity|]. rewrite IH. reflexivity.
Qed.

Lemma sorted_length (l : list Q) : length (sorted l) = length l.
Proof.
  induction l as [|x l IH]; simpl; [reflexivity|].
  rewrite insert_sorted_length, IH. reflexivity.
Qed.



(** ** The collection loop of the local-deviation pass *)

Lemma already_detected_app (wl : Q) (l1 l2 : list Q) :
  already_detected wl (l1 ++ l2) = already_detected wl l1 || already_detected wl l2.
Proof. unfold already_detected. apply existsb_app. Qed.

Lemma already_detected_near (wl : Q) (locs : list Q) :
  already_detected wl locs = true <->
  exists loc, In loc locs /\ Qabs (wl - loc) < 50.
Proof.
  unfold already_detected. rewrite existsb_exists.
  split; intros (loc & Hin & H); exists loc; (split; [assumption|]);
    apply Qltb_lt; exact H.
Qed.

Lemma already_detected_far (wl : Q) (locs : list Q) :
  already_detected wl locs = false <->
  forall loc, In loc locs -> 50 <= Qabs (wl - loc).
Proof.
  split.
  - intros H loc Hin.
    destruct (Qlt_le_dec (Qabs (wl - loc)) 50) as [Hlt|Hle]; [|exact Hle].
    assert (already_detected wl locs = true)
      by (apply already_detected_near; eauto).
    congruence.
  - intro H. destruct (already_detected wl locs) eqn:E; [|reflexivity].
    apply already_detected_near in E. destruct E as (loc & Hin & Hlt).
    specialize (H loc Hin). lra.
Qed.

Lemma already_detected_self (wl : Q) (locs : list Q) :
  In wl locs -> already_detected wl locs = true.
Proof.
  intro H. apply already_detected_near. exists wl. split; [assumption|].
  assert (E : wl - wl == 0) by ring. rewrite E. reflexivity.
Qed.


Lemma add_unique_locations_spec (wavelength : list Q) (bands : list nat)
  (defect_locations out : list Q) :
  add_unique_locations wavelength bands defect_locations = Ok out ->
  exists added,
    out = defect_locations ++ added /\
    Forall (fun wl => exists idx, In idx bands /\ nth_error wavelength idx = Some wl)
           added /\
    Forall (fun wl => forall loc, In loc defect_locations -> 50 <= Qabs (wl - loc))
           added /\
    ForallOrdPairs (fun a b => 50 <= Qabs (b - a)) added /\
    (forall idx wl, In idx bands -> nth_error wavelength idx = Some wl ->
                    exists loc, In loc out /\ Qabs (wl - loc) < 50).
Proof.
  revert defect_locations.
  induction bands as [|i bands IH]; intros locs H; simpl in H.
  - inversion H; subst. exists []. rewrite app_nil_r.
    repeat split; try constructor. intros idx wl [].
  - inv_bind H. apply getitem_Ok in Hx.
    destruct (already_detected x locs) eqn:E; simpl in H.
    + destruct (IH _ H) as (added & Eout & Hsrc & Hfar & Hpair & Hcov).
      exists added. repeat split; try assumption.
      * eapply Forall_impl; [|exact Hsrc]. intros wl (idx & Hin & Hn).
        exists idx. split; [right; assumption|assumption].
      * intros idx wl [<-|Hin] Hn; [|eauto].
        assert (wl = x) by congruence. subst wl.
        apply already_detected_near in E. destruct E as (loc & Hloc & Hlt).
        exists loc. split; [|assumption]. rewrite Eout.
        apply in_or_app. left. assumption.
    + destruct (IH _ H) as (added & Eout & Hsrc & Hfar & Hpair & Hcov).
      exists (x :: added). rewrite <- app_assoc in Eout. simpl in Eout.
      split; [assumption|]. split; [|split; [|split]].
      * constructor; [exists i; split; [left; reflexivity|assumption]|].
        eapply Forall_impl; [|exact Hsrc]. intros wl (idx & Hin & Hn).
        exists idx. split; [right; assumption|assumption].
      * constructor; [apply already_detected_far; exact E|].
        eapply Forall_impl; [|exact Hfar]. intros wl Hwl loc Hloc.
        apply Hwl. apply in_or_app. left. assumption.
      * constructor; [|assumption].
        eapply Forall_impl; [|exact Hfar]. intros wl Hwl.
        apply Hwl. apply in_or_app. right. left. reflexivity.
      * intros idx wl [<-|Hin] Hn; [|eauto].
        assert (wl = x) by congruence. subst wl.
        exists x. split.
        -- rewrite Eout. apply in_or_app. right. left. reflexivity.
        -- assert (E0 : x - x == 0) by ring. rewrite E0. reflexivity.
Qed.





(** ** Shapes of the numpy results *)

Lemma diff_length (a : list Q) : length (Np.diff a) = (length a - 1)%nat.
Proof.
  induction a as [|x [|y rest] IH]; try reflexivity.
  change (Np.diff (x :: y :: rest)) with ((y - x) :: Np.diff (y :: rest)).
  simpl length in *. rewrite IH. lia.
Qed.

Lemma interior_uniform_length (h : Q) (f : list Q) :
  length (Np.interior_uniform h f) = (length f - 2)%nat.
Proof.
  induction f as [|f0 [|f1 [|f2 rest]] IH]; try reflexivity.
  change (Np.interior_uniform h (f0 :: f1 :: f2 :: rest))
    with (((f2 - f0) / (2 * h)) :: Np.interior_uniform h (f1 :: f2 :: rest)).
  simpl length in *. rewrite IH. lia.
Qed.

Lemma interior_nonuniform_length (f dx : list Q) :
  length dx = (length f - 1)%nat ->
  length (Np.interior_nonuniform f dx) = (length f - 2)%nat.
Proof.
  revert dx. induction f as [|f0 [|f1 [|f2 rest]] IH]; intros dx Hdx;
    destruct dx as [|dx1 [|dx2 dx']]; try reflexivity;
    try (simpl in Hdx; lia).
  change (length (Np.interior_nonuniform (f0 :: f1 :: f2 :: rest) (dx1 :: dx2 :: dx')))
    with (S (length (Np.interior_nonuniform (f1 :: f2 :: rest) (dx2 :: dx')))).
  rewrite (IH (dx2 :: dx')); simpl in *; lia.
Qed.

Lemma gradient_mismatch (f x : list Q) :
  length x <> length f -> Np.gradient f x = Err ValueError.
Proof.
  intro H. unfold Np.gradient.
  apply Nat.eqb_neq in H. rewrite H. reflexivity.
Qed.

Lemma gradient_Ok_inv (f x g : list Q) :
  Np.gradient f x = Ok g ->
  length x = length f /\ (2 <= length f)%nat /\ length g = length f.
Proof.
  unfold Np.gradient. intro H.
  destruct (Nat.eqb (length x) (length f)) eqn:El; [|discriminate].
  apply Nat.eqb_eq in El. simpl in H.
  pose proof (diff_length x) as Hd.
  destruct (Np.diff x) as [|d0 ds] eqn:Ed; [discriminate|].
  destruct (Nat.ltb (length f) 2) eqn:E2; [discriminate|].
  apply Nat.ltb_ge in E2. split; [assumption|]. split; [assumption|].
  destruct (forallb (fun d => Qeq_bool d d0) (d0 :: ds)); inversion H; subst;
    simpl length; rewrite length_app; simpl length.
  - rewrite interior_uniform_length. lia.
  - rewrite interior_nonuniform_length; [lia|]. rewrite Hd. congruence.
Qed.

Lemma gradient_total (f x : list Q) :
  length x = length f -> (2 <= length f)%nat ->
  exists g, Np.gradient f x = Ok g.
Proof.
  intros Hl H2. unfold Np.gradient.
  rewrite (proj2 (Nat.eqb_eq _ _) Hl). simpl.
  pose proof (diff_length x) as Hd.
  destruct (Np.diff x) as [|d0 ds] eqn:Ed; [simpl in Hd; lia|].
  rewrite (proj2 (Nat.ltb_ge _ _) H2).
  destruct (forallb (fun d => Qeq_bool d d0) (d0 :: ds)); eauto.
Qed.

Lemma ones_over_length (n : nat) : length (Np.ones_over n) = n.
Proof. unfold Np.ones_over. apply repeat_length. Qed.

Lemma convolve_full_length (a v : list Q) :
  length (Np.convolve_full a v) = (length a + length v - 1)%nat.
Proof. unfold Np.convolve_full. rewrite length_map, length_seq. reflexivity. Qed.

Lemma convolve_same_Ok (a v : list Q) :
  a <> [] -> v <> [] ->
  exists c, Np.convolve_same a v = Ok c /\
            length c = Nat.max (length a) (length v).
Proof.
  intros Ha Hv. unfold Np.convolve_same.
  destruct a as [|a0 a']; [congruence|]. destruct v as [|v0 v']; [congruence|].
  set (a := a0 :: a'). set (v := v0 :: v').
  assert (La : (1 <= length a)%nat) by (simpl; lia).
  assert (Lv : (1 <= length v)%nat) by (simpl; lia).
  assert (Hdiv : forall n, ((n - 1) / 2 <= n - 1)%nat).
  { intro n. apply Nat.Div0.div_le_upper_bound. lia. }
  destruct (Nat.ltb (length a) (length v)) eqn:E.
  - apply Nat.ltb_lt in E. eexists. split; [reflexivity|].
    rewrite length_firstn, length_skipn, convolve_full_length.
    specialize (Hdiv (length a)). lia.
  - apply Nat.ltb_ge in E. eexists. split; [reflexivity|].
    rewrite length_firstn, length_skipn, convolve_full_length.
    specialize (Hdiv (length v)). lia.
Qed.

Lemma convolve_same_Ok_inv (a v c : list Q) :
  Np.convolve_same a v = Ok c ->
  length c = Nat.max (length a) (length v).
Proof.
  intro H. destruct a as [|a0 a']; [discriminate|].
  destruct v as [|v0 v']; [destruct a'; discriminate|].
  destruct (@convolve_same_Ok (a0 :: a') (v0 :: v')) as (c' & E & L);
    try discriminate.
  congruence.
Qed.

Lemma sub_Ok_same_length (a b : list Q) :
  length a = length b ->
  exists d, Np.sub a b = Ok d /\ length d = length a.
Proof.
  intro H. unfold Np.sub. rewrite (proj2 (Nat.eqb_eq _ _) H).
  eexists. split; [reflexivity|].
  rewrite length_map, length_combine. lia.
Qed.

Lemma sub_shape_error (a b : list Q) :
  length a <> length b -> length a <> 1%nat -> length b <> 1%nat ->
  Np.sub a b = Err ValueError.
Proof.
  intros H Ha Hb. unfold Np.sub. rewrite (proj2 (Nat.eqb_neq _ _) H).
  destruct a as [|x [|x' a']]; destruct b as [|y [|y' b']];
    simpl in *; try reflexivity; lia.
Qed.

(** ** The two passes of the defect detector *)

Lemma gradient_smooth_Ok_inv (wavelength transmission smooth : list Q) :
  gradient_smooth wavelength transmission = Ok smooth ->
  length wavelength = length transmission /\
  (2 <= length transmission)%nat /\
  length smooth = length transmission.
Proof.
  unfold gradient_smooth. intro H. inv_bind H.
  apply gradient_Ok_inv in Hx. destruct Hx as (Hl & H2 & Hg).
  split; [assumption|]. split; [assumption|].
  destruct (Nat.ltb 1 (Nat.min 5 (length x / 10))) eqn:E.
  - apply convolve_same_Ok_inv in H. rewrite ones_over_length in H.
    assert (length x / 10 <= length x)%nat
      by (apply Nat.Div0.div_le_upper_bound; lia).
    lia.
  - inversion H; subst. assumption.
Qed.

Lemma gradient_smooth_total (wavelength transmission : list Q) :
  length wavelength = length transmission ->
  (2 <= length transmission)%nat ->
  exists smooth, gradient_smooth wavelength transmission = Ok smooth.
Proof.
  intros Hl H2. unfold gradient_smooth.
  destruct (gradient_total transmission wavelength Hl H2) as (g & Eg).
  rewrite Eg. cbn [bind].
  destruct (Nat.ltb 1 (Nat.min 5 (length g / 10))) eqn:E;
    [|exists g; reflexivity].
  apply Nat.ltb_lt in E.
  apply gradient_Ok_inv in Eg. destruct Eg as (_ & _ & Hg).
  assert (Hg0 : g <> []) by (intro; subst g; simpl in Hg; lia).
  assert (Hk0 : Np.ones_over (Nat.min 5 (length g / 10)) <> []).
  { intro E0. apply (f_equal (@length Q)) in E0.
    rewrite ones_over_length in E0. change (length (@nil Q)) with 0%nat in E0. lia. }
  destruct (convolve_same_Ok _ _ Hg0 Hk0) as (c & Ec & _).
  exists c. exact Ec.
Qed.

Lemma gradient_smooth_raw_when_short (wavelength transmission : list Q) :
  (length transmission < 20)%nat ->
  gradient_smooth wavelength transmission = Np.gradient transmission wavelength.
Proof.
  intro Hshort. unfold gradient_smooth.
  destruct (Np.gradient transmission wavelength) as [g|e] eqn:Eg; [|reflexivity].
  cbn [bind]. apply gradient_Ok_inv in Eg. destruct Eg as (_ & _ & Hg).
  assert (length g / 10 <= 1)%nat.
  { assert (length g / 10 < 2)%nat by (apply Nat.Div0.div_lt_upper_bound; lia).
    lia. }
  replace (Nat.ltb 1 (Nat.min 5 (length g / 10))) with false; [reflexivity|].
  symmetry. apply Nat.ltb_ge. lia.
Qed.

Lemma cluster_loop_Forall (P : nat -> Prop) (rest : list nat) :
  forall prev current clusters,
    Forall P rest -> Forall P current -> current <> [] ->
    Forall (fun c => c <> [] /\ Forall P c) clusters ->
    Forall (fun c => c <> [] /\ Forall P c)
           (cluster_loop prev rest current clusters).
Proof.
  induction rest as [|d rest IH]; intros prev current clusters Hr Hc Hne Hcl;
    simpl.
  - apply Forall_app. split; [assumption|]. constructor; [auto|constructor].
  - inversion Hr; subst.
    destruct (Z.of_nat d - Z.of_nat prev <? 10)%Z.
    + apply IH; try assumption.
      * apply Forall_app. split; [assumption|]. constructor; [assumption|constructor].
      * destruct current; discriminate.
    + apply IH; try assumption.
      * constructor; [assumption|constructor].
      * discriminate.
      * apply Forall_app. split; [assumption|]. constructor; [auto|constructor].
Qed.

Lemma cluster_center_total (wavelength : list Q) (cluster : list nat) :
  cluster <> [] -> Forall (fun i => (i < length wavelength)%nat) cluster ->
  exists wl, cluster_center wavelength cluster = Ok wl.
Proof.
  intros Hne Hall. unfold cluster_center.
  assert (Hmid : (length cluster / 2 < length cluster)%nat).
  { apply Nat.div_lt; [|lia]. destruct cluster; [congruence|simpl; lia]. }
  destruct (getitem_lt cluster _ Hmid) as (c & Ec). rewrite Ec. cbn [bind].
  apply getitem_lt. rewrite Forall_forall in Hall. apply Hall.
  eapply getitem_In. exact Ec.
Qed.


Lemma mapM_total {A B : Type} (f : A -> result B) (l : list A) :
  Forall (fun x => exists y, f x = Ok y) l -> exists ys, mapM f l = Ok ys.
Proof.
  induction 1 as [|x l (y & Ey) _ (ys & Eys)]; simpl; [eauto|].
  rewrite Ey, Eys. simpl. eauto.
Qed.



Lemma gradient_pass_total (wavelength transmission : list Q) :
  length wavelength = length transmission ->
  (2 <= length transmission)%nat ->
  exists grad, gradient_pass wavelength transmission = Ok grad.
Proof.
  intros Hl H2. unfold gradient_pass.
  destruct (gradient_smooth_total _ _ Hl H2) as (smooth & Es).
  rewrite Es. cbn [bind].
  apply gradient_smooth_Ok_inv in Es. destruct Es as (_ & _ & Hs).
  set (mask := map (fun g => Qltb g (- DEFECT_GRADIENT_THRESHOLD)) smooth).
  assert (Hidx : Forall (fun i => (i < length wavelength)%nat) (Np.where_ mask)).
  { apply Forall_forall. intros i Hi. apply where_lt in Hi.
    unfold mask in Hi. rewrite length_map in Hi. lia. }
  destruct (Np.where_ mask) as [|d0 rest]; [eauto|].
  inversion Hidx; subst.
  apply mapM_total.
  eapply Forall_impl;
    [|apply (cluster_loop_Forall (fun i => (i < length wavelength)%nat));
      [eassumption|constructor; [eassumption|constructor]|discriminate|constructor]].
  intros c [Hne Hc]. apply cluster_center_total; assumption.
Qed.

Lemma absorption_bands_total (transmission : list Q) :
  (20 <= length transmission)%nat ->
  exists bands, absorption_bands transmission = Ok bands /\
                Forall (fun i => (i < length transmission)%nat) bands.
Proof.
  intro H20. unfold absorption_bands.
  assert (Ht0 : transmission <> []) by (intro; subst; simpl in H20; lia).
  assert (Hk0 : Np.ones_over 20 <> []) by discriminate.
  destruct (convolve_same_Ok _ _ Ht0 Hk0) as (c & Ec & Lc).
  rewrite Ec. cbn [bind]. rewrite ones_over_length in Lc.
  assert (Hlen : length transmission = length c) by lia.
  destruct (sub_Ok_same_length _ _ Hlen) as (d & Ed & Ld).
  rewrite Ed. cbn [bind]. eexists. split; [reflexivity|].
  apply Forall_forall. intros i Hi. apply where_lt in Hi.
  rewrite length_map in Hi. lia.
Qed.

Lemma absorption_bands_short (transmission : list Q) :
  (2 <= length transmission < 20)%nat ->
  absorption_bands transmission = Err ValueError.
Proof.
  intro H. unfold absorption_bands.
  assert (Ht0 : transmission <> []) by (intro; subst; simpl in H; lia).
  assert (Hk0 : Np.ones_over 20 <> []) by discriminate.
  destruct (convolve_same_Ok _ _ Ht0 Hk0) as (c & Ec & Lc).
  rewrite Ec. cbn [bind]. rewrite ones_over_length in Lc.
  rewrite sub_shape_error; [reflexivity| | |]; lia.
Qed.

Lemma add_unique_locations_total (wavelength : list Q) (bands : list nat) :
  Forall (fun i => (i < length wavelength)%nat) bands ->
  forall defect_locations,
  exists out, add_unique_locations wavelength bands defect_locations = Ok out.
Proof.
  induction 1 as [|i bands Hi _ IH]; intro locs; simpl; [eauto|].
  destruct (getitem_lt wavelength _ Hi) as (wl & Ewl). rewrite Ewl. cbn [bind].
  destruct (already_detected wl locs); simpl; apply IH.
Qed.

(** Arrays of equal length with 2 to 19 points: the gradient pass returns,
    and the local-deviation pass raises, because the moving average of mode
    [same] has 20 entries and cannot be subtracted from the shorter array. *)
Lemma detect_defects_short_raises (wavelength transmission : list Q) :
  length wavelength = length transmission ->
  (2 <= length transmission < 20)%nat ->
  (exists grad, gradient_pass wavelength transmission = Ok grad) /\
  _detect_defects wavelength transmission = Err ValueError.
Proof.
  intros Hl H. destruct (gradient_pass_total _ _ Hl (proj1 H)) as (grad & Eg).
  split; [eauto|]. unfold _detect_defects. rewrite Eg. cbn [bind].
  rewrite (absorption_bands_short _ H). reflexivity.
Qed.

Lemma detect_defects_mismatch (wavelength transmission : list Q) :
  length wavelength <> length transmission ->
  _detect_defects wavelength transmission = Err ValueError.
Proof.
  intro H. unfold _detect_defects, gradient_pass, gradient_smooth.
  rewrite (gradient_mismatch _ _ H). reflexivity.
Qed.

Lemma detect_defects_Ok_inv (wavelength transmission out : list Q) :
  _detect_defects wavelength transmission = Ok out ->
  length wavelength = length transmission /\ (20 <= length transmission)%nat.
Proof.
  intro H. unfold _detect_defects in H. inv_bind H.
  unfold gradient_pass in Hx. inv_bind Hx.
  apply gradient_smooth_Ok_inv in Hx0. destruct Hx0 as (Hl & H2 & _).
  split; [assumption|].
  destruct (Nat.lt_ge_cases (length transmission) 20) as [Hs|]; [|assumption].
  rewrite absorption_bands_short in H by lia. discriminate.
Qed.

(** ** The defect detector as a whole *)

Lemma detect_defects_total (wavelength transmission : list Q) :
  length wavelength = length transmission ->
  (20 <= length transmission)%nat ->
  exists out, _detect_defects wavelength transmission = Ok out.
Proof.
  intros Hl H20. unfold _detect_defects.
  assert (H2 : (2 <= length transmission)%nat) by lia.
  destruct (gradient_pass_total _ _ Hl H2) as (grad & Eg).
  rewrite Eg. cbn [bind].
  destruct (absorption_bands_total _ H20) as (bands & Eb & Hb).
  rewrite Eb. cbn [bind]. rewrite <- Hl in Hb.
  destruct (add_unique_locations_total _ _ Hb grad) as (locs & El).
  rewrite El. cbn [bind]. eauto.
Qed.



(** C2, on the code.  On the seven-point spectrum with a dip the gradient
    pass finds the drop at 500 nm, and the detector raises [ValueError]
    instead of returning that location. *)
Theorem detect_defects_raises_on_seven_points :
  gradient_pass dip_wavelength dip_transmission = Ok [500] /\
  absorption_bands dip_transmission = Err ValueError /\
  _detect_defects dip_wavelength dip_transmission = Err ValueError.
Proof. repeat split; vm_compute; reflexivity. Qed.

(** ** The metrics record *)

Lemma getmask_Ok {A : Type} (a : list A) (mask : list bool) (v : list A) :
  Np.getmask a mask = Ok v <-> length a = length mask /\ v = Np.select a mask.
Proof.
  unfold Np.getmask. destruct (Nat.eqb (length a) (length mask)) eqn:E.
  - apply Nat.eqb_eq in E. split.
    + intro H. inversion H. auto.
    + intros [_ ->]. reflexivity.
  - apply Nat.eqb_neq in E. split; [discriminate|]. intros [H _]. contradiction.
Qed.

Lemma visible_mask_length (wavelength : list Q) :
  length (visible_mask wavelength) = length wavelength.
Proof. unfold visible_mask. apply length_map. Qed.

(** Everything a returned record holds, in terms of the inputs. *)
Lemma calculate_metrics_Ok_inv (sqrt : Q -> Q) (self : QualityClassifier)
  (wavelength transmission : list Q) (sid mat : string) (m : QualityMetrics) :
  calculate_metrics sqrt self wavelength transmission sid mat = Ok m ->
  exists peak bw locs,
    Np.max transmission = Ok peak /\
    _calculate_bandwidth wavelength transmission (bandwidth_threshold self) = Ok bw /\
    _detect_defects wavelength transmission = Ok locs /\
    let covered := Np.any (visible_mask wavelength) in
    let visible := Np.select transmission (visible_mask wavelength) in
    let avg := if covered then Np.mean visible else Np.mean transmission in
    let passed :=
      Qgeb avg (visible_threshold self) && Nat.eqb (length locs) 0 in
    m = mkQualityMetrics sid mat peak avg (Np.mean transmission) bw
          (if covered then uniformity_of sqrt visible else 0)
          (length locs) locs (_classify_grade avg) passed
          (notes_of covered avg (visible_threshold self) (length locs)).
Proof.
  unfold calculate_metrics. intro H.
  inv_bind H. inv_bind H. inv_bind H. inv_bind H.
  inv_bind H. inv_bind H. inv_bind H.
  exists x, x3, x5. split; [assumption|]. split; [assumption|].
  split; [assumption|]. cbv zeta.
  inversion H; subst m; clear H.
  unfold notes_of.
  destruct (Np.any (visible_mask wavelength)) eqn:Ecov.
  - inv_bind Hx2. inv_bind Hx4.
    apply getmask_Ok in Hx6, Hx7. destruct Hx6 as [_ ->], Hx7 as [_ ->].
    inversion Hx2; subst x2. inversion Hx4; subst x4. cbn [fst snd].
    set (avg := Np.mean (Np.select transmission (visible_mask wavelength))).
    destruct (Nat.ltb 0 (length x5)) eqn:Edc.
    + assert (E0 : Nat.eqb (length x5) 0 = false).
      { apply Nat.eqb_neq. apply Nat.ltb_lt in Edc. lia. }
      rewrite E0, andb_false_r. cbn [negb].
      destruct (Qltb avg (visible_threshold self)); reflexivity.
    + assert (E0 : Nat.eqb (length x5) 0 = true).
      { apply Nat.eqb_eq. apply Nat.ltb_ge in Edc. lia. }
      rewrite E0, andb_true_r. unfold Qgeb, Qleb, Qltb.
      destruct (Qle_bool (visible_threshold self) avg); reflexivity.
  - inversion Hx2; subst x2. inversion Hx4; subst x4. cbn [fst snd].
    set (avg := Np.mean transmission).
    destruct (Nat.ltb 0 (length x5)) eqn:Edc.
    + assert (E0 : Nat.eqb (length x5) 0 = false).
      { apply Nat.eqb_neq. apply Nat.ltb_lt in Edc. lia. }
      rewrite E0, andb_false_r. cbn [negb].
      destruct (Qltb avg (visible_threshold self)); reflexivity.
    + assert (E0 : Nat.eqb (length x5) 0 = true).
      { apply Nat.eqb_eq. apply Nat.ltb_ge in Edc. lia. }
      rewrite E0, andb_true_r. unfold Qgeb, Qleb, Qltb.
      destruct (Qle_bool (visible_threshold self) avg); reflexivity.
Qed.

Lemma select_visible_values (wavelength transmission : list Q) :
  Np.select transmission (visible_mask wavelength)
  = visible_values wavelength transmission.
Proof.
  unfold visible_values, visible_mask.
  revert transmission. induction wavelength as [|w wl IH]; intros [|t tr];
    try reflexivity.
  simpl. change (Qgeb w 400 && Qleb w 700) with (in_visible_rangeb w).
  destruct (in_visible_rangeb w); simpl; rewrite IH; reflexivity.
Qed.

Lemma in_visible_rangeb_iff (w : Q) :
  in_visible_rangeb w = true <-> in_visible_range w.
Proof.
  unfold in_visible_rangeb, in_visible_range.
  rewrite andb_true_iff, !Qle_bool_iff. reflexivity.
Qed.

Lemma visible_mask_any (wavelength : list Q) :
  Np.any (visible_mask wavelength) = true <-> covers_visible wavelength.
Proof.
  rewrite any_true. unfold visible_mask, covers_visible.
  rewrite in_map_iff. split; intros (w & H1 & H2); exists w.
  - split; [assumption|]. apply in_visible_rangeb_iff. exact H1.
  - split; [|assumption]. apply in_visible_rangeb_iff in H2. exact H2.
Qed.

Lemma visible_mask_not_any (wavelength : list Q) :
  Np.any (visible_mask wavelength) = false <-> ~ covers_visible wavelength.
Proof.
  rewrite <- visible_mask_any.
  destruct (Np.any (visible_mask wavelength)); split; congruence.
Qed.

(** C9. When some wavelength lies in [400, 700] the visible average is the
    mean of the transmission values at those wavelengths; otherwise it is
    the mean of the whole spectrum and the note that the visible range is
    not covered is among the notes of the record. *)
Theorem calculate_metrics_visible_average (sqrt : Q -> Q)
  (self : QualityClassifier) (wavelength transmission : list Q)
  (sid mat : string) (m : QualityMetrics) :
  calculate_metrics sqrt self wavelength transmission sid mat = Ok m ->
  (covers_visible wavelength ->
   avg_transmission_visible m = Np.mean (visible_values wavelength transmission) /\
   ~ In NoteVisibleNotCovered (notes m)) /\
  (~ covers_visible wavelength ->
   avg_transmission_visible m = Np.mean transmission /\
   avg_transmission_visible m = avg_transmission_full m /\
   In NoteVisibleNotCovered (notes m)).
Proof.
  intro H. apply calculate_metrics_Ok_inv in H.
  destruct H as (peak & bw & locs & _ & _ & _ & ->). cbn [avg_transmission_visible
    avg_transmission_full notes]. unfold notes_of. split; intro Hc.
  - apply visible_mask_any in Hc. rewrite Hc, select_visible_values.
    split; [reflexivity|]. intro Hin. cbn [app] in Hin.
    repeat (apply in_app_or in Hin; destruct Hin as [Hin|Hin]);
      repeat match type of Hin with
             | In _ (if ?c then _ else _) => destruct c
             end;
      simpl in Hin; intuition discriminate.
  - apply visible_mask_not_any in Hc. rewrite Hc.
    split; [reflexivity|]. split; [reflexivity|]. left. reflexivity.
Qed.

Lemma calculate_metrics_visible_average_witness :
  exists m,
    calculate_metrics sqrt_approx default_classifier
      (arange 800 10 20) flat_transmission "s" "m" = Ok m /\
    (~ covers_visible (arange 800 10 20) ->
     avg_transmission_visible m = Np.mean flat_transmission /\
     avg_transmission_visible m = avg_transmission_full m /\
     In NoteVisibleNotCovered (notes m)).
Proof.
  eexists. split; [vm_compute; reflexivity|].
  apply (calculate_metrics_visible_average sqrt_approx default_classifier
           (arange 800 10 20) flat_transmission "s" "m").
  vm_compute. reflexivity.
Defined.

(** C4. The record passes quality control exactly when the visible average
    reaches the configured threshold and no defect was found; with one
    defect or more it fails whatever the transmission. *)
Theorem calculate_metrics_pass_qc (sqrt : Q -> Q)
  (self : QualityClassifier) (wavelength transmission : list Q)
  (sid mat : string) (m : QualityMetrics) :
  calculate_metrics sqrt self wavelength transmission sid mat = Ok m ->
  (pass_qc m = true <->
   visible_threshold self <= avg_transmission_visible m /\ defect_count m = 0%nat) /\
  ((0 < defect_count m)%nat -> pass_qc m = false) /\
  defect_count m = length (defect_locations m).
Proof.
  intro H. apply calculate_metrics_Ok_inv in H.
  destruct H as (peak & bw & locs & _ & _ & _ & ->).
  cbn [pass_qc avg_transmission_visible defect_count defect_locations].
  rewrite andb_true_iff, Qgeb_ge, Nat.eqb_eq.
  split; [reflexivity|]. split; [|reflexivity].
  intro Hpos. apply andb_false_iff. right. apply Nat.eqb_neq. lia.
Qed.

Lemma calculate_metrics_pass_qc_witness :
  exists m,
    calculate_metrics sqrt_approx default_classifier
      twin_dip_wavelength twin_dip_transmission "s" "m" = Ok m /\
    (pass_qc m = true <->
     visible_threshold default_classifier <= avg_transmission_visible m /\
     defect_count m = 0%nat) /\
    ((0 < defect_count m)%nat -> pass_qc m = false) /\
    defect_count m = length (defect_locations m).
Proof.
  eexists. split; [vm_compute; reflexivity|].
  apply (calculate_metrics_pass_qc sqrt_approx default_classifier
           twin_dip_wavelength twin_dip_transmission "s" "m").
  vm_compute. reflexivity.
Defined.

(** C6. The grade is Excellent from 90, Good from 80, Fair from 70 and Poor
    below; the grade of a record is that function of its visible average,
    so two classifiers that differ in their configured thresholds give the
    same spectrum the same grade. *)
Theorem classify_grade_fixed_thresholds :
  (forall a,
     (90 <= a -> _classify_grade a = EXCELLENT) /\
     (80 <= a -> a < 90 -> _classify_grade a = GOOD) /\
     (70 <= a -> a < 80 -> _classify_grade a = FAIR) /\
     (a < 70 -> _classify_grade a = POOR)) /\
  (forall sqrt c1 c2 wavelength transmission sid mat m1 m2,
     calculate_metrics sqrt c1 wavelength transmission sid mat = Ok m1 ->
     calculate_metrics sqrt c2 wavelength transmission sid mat = Ok m2 ->
     quality_grade m1 = _classify_grade (avg_transmission_visible m1) /\
     quality_grade m2 = quality_grade m1).
Proof.
  split.
  - intro a.
    destruct (classify_grade_cases a) as [[Ha Ea]|[[Ha Ea]|[[Ha Ea]|[Ha Ea]]]];
      rewrite Ea; repeat split; intros; try reflexivity; exfalso; lra.
  - intros sqrt c1 c2 wavelength transmission sid mat m1 m2 H1 H2.
    apply calculate_metrics_Ok_inv in H1, H2.
    destruct H1 as (? & ? & ? & _ & _ & _ & ->).
    destruct H2 as (? & ? & ? & _ & _ & _ & ->).
    split; reflexivity.
Qed.

Lemma classify_grade_fixed_thresholds_witness :
  exists m1 m2,
    calculate_metrics sqrt_approx default_classifier
      flat_wavelength flat_transmission "s" "m" = Ok m1 /\
    calculate_metrics sqrt_approx strict_classifier
      flat_wavelength flat_transmission "s" "m" = Ok m2 /\
    pass_qc m1 = true /\ pass_qc m2 = false /\
    quality_grade m1 = _classify_grade (avg_transmission_visible m1) /\
    quality_grade m2 = quality_grade m1.
Proof.
  eexists. eexists.
  split; [vm_compute; reflexivity|].
  split; [vm_compute; reflexivity|].
  split; [reflexivity|]. split; [reflexivity|].
  apply (proj2 classify_grade_fixed_thresholds sqrt_approx
           default_classifier strict_classifier
           flat_wavelength flat_transmission "s"%string "m"%string);
    vm_compute; reflexivity.
Defined.

(** ** Uniformity *)

Lemma sqrt_approx_nonneg (x : Q) : 0 <= sqrt_approx x.
Proof.
  unfold sqrt_approx, Qle. simpl.
  pose proof (Z.sqrt_nonneg (Qnum x * 1000000000000 / Z.pos (Qden x))). lia.
Qed.

Lemma py_max_Qmax (x : Q) : py_max 0 x == Qmax 0 x.
Proof.
  unfold py_max. destruct (Qltb 0 x) eqn:E.
  - apply Qltb_lt in E. symmetry. apply Q.max_r. lra.
  - apply Qltb_nlt in E. symmetry. apply Q.max_l. exact E.
Qed.

Lemma uniformity_of_range (sqrt : Q -> Q) (v : list Q) :
  (forall x, 0 <= sqrt x) ->
  0 <= uniformity_of sqrt v /\ uniformity_of sqrt v <= 100.
Proof.
  intro Hsqrt. unfold uniformity_of.
  set (cv := if Qgtb (Np.mean v) 0 then Np.std sqrt v / Np.mean v else 1).
  assert (Hcv : 0 <= cv).
  { unfold cv. destruct (Qgtb (Np.mean v) 0) eqn:E; [|lra].
    apply Qgtb_gt in E. apply Qle_shift_div_l; [exact E|].
    unfold Np.std. specialize (Hsqrt
      (Np.mean (map (fun x => Qabs (x - Np.mean v) * Qabs (x - Np.mean v)) v))).
    lra. }
  unfold py_max. destruct (Qltb 0 (1 - cv)) eqn:E.
  - apply Qltb_lt in E. lra.
  - lra.
Qed.

(** C8. The uniformity score lies between 0 and 100; it is
    100 * max(0, 1 - std / mean) of the visible transmission values when
    their mean is positive, 0 when it is not, and 0 when no wavelength lies
    in the visible range.  The square root behind the standard deviation is
    any function with non-negative values. *)
Theorem calculate_metrics_uniformity (sqrt : Q -> Q)
  (self : QualityClassifier) (wavelength transmission : list Q)
  (sid mat : string) (m : QualityMetrics) :
  (forall x, 0 <= sqrt x) ->
  calculate_metrics sqrt self wavelength transmission sid mat = Ok m ->
  (0 <= uniformity_score m /\ uniformity_score m <= 100) /\
  (covers_visible wavelength ->
   0 < Np.mean (visible_values wavelength transmission) ->
   uniformity_score m ==
   100 * Qmax 0 (1 - Np.std sqrt (visible_values wavelength transmission)
                     / Np.mean (visible_values wavelength transmission))) /\
  (covers_visible wavelength ->
   ~ 0 < Np.mean (visible_values wavelength transmission) ->
   uniformity_score m == 0) /\
  (~ covers_visible wavelength -> uniformity_score m = 0).
Proof.
  intros Hsqrt H. apply calculate_metrics_Ok_inv in H.
  destruct H as (peak & bw & locs & _ & _ & _ & ->). cbn [uniformity_score].
  rewrite select_visible_values.
  set (v := visible_values wavelength transmission).
  split; [|split; [|split]].
  - destruct (Np.any (visible_mask wavelength));
      [apply uniformity_of_range; exact Hsqrt|lra].
  - intros Hc Hpos. apply visible_mask_any in Hc. rewrite Hc.
    unfold uniformity_of. rewrite (proj2 (Qgtb_gt _ _) Hpos).
    rewrite py_max_Qmax. ring.
  - intros Hc Hpos. apply visible_mask_any in Hc. rewrite Hc.
    unfold uniformity_of.
    destruct (Qgtb (Np.mean v) 0) eqn:E; [apply Qgtb_gt in E; contradiction|].
    vm_compute. reflexivity.
  - intro Hc. apply visible_mask_not_any in Hc. rewrite Hc. reflexivity.
Qed.

Lemma calculate_metrics_uniformity_witness :
  exists m,
    calculate_metrics sqrt_approx default_classifier
      twin_dip_wavelength twin_dip_transmission "s" "m" = Ok m /\
    0 <= uniformity_score m /\ uniformity_score m <= 100.
Proof.
  eexists. split; [vm_compute; reflexivity|].
  apply (calculate_metrics_uniformity sqrt_approx default_classifier
           twin_dip_wavelength twin_dip_transmission "s" "m").
  - exact sqrt_approx_nonneg.
  - vm_compute. reflexivity.
Defined.

(** ** Exceptions of the metrics engine *)

Lemma raises_only_raw_Ok {A : Type} (a : A) : raises_only_raw (Ok a).
Proof. intros e H. discriminate. Qed.

Lemma raises_only_raw_ValueError {A : Type} :
  raises_only_raw (@Err A ValueError).
Proof. intros e H. inversion H. left. reflexivity. Qed.

Lemma raises_only_raw_IndexError {A : Type} :
  raises_only_raw (@Err A IndexError).
Proof. intros e H. inversion H. right. reflexivity. Qed.

Lemma raises_only_raw_bind {A B : Type} (r : result A) (k : A -> result B) :
  raises_only_raw r -> (forall a, raises_only_raw (k a)) ->
  raises_only_raw (bind r k).
Proof.
  intros Hr Hk. destruct r as [a|e]; simpl; [apply Hk|].
  intros e' H. inversion H; subst e'. apply Hr. reflexivity.
Qed.

Create HintDb raw.
#[local] Hint Resolve raises_only_raw_Ok raises_only_raw_ValueError
  raises_only_raw_IndexError : raw.

Ltac raw_step :=
  match goal with
  | |- raises_only_raw (bind _ _) => apply raises_only_raw_bind; [|intro]
  | |- raises_only_raw (if ?c then _ else _) => destruct c
  | |- raises_only_raw (match ?x with _ => _ end) => destruct x
  | |- raises_only_raw (let (_, _) := ?x in _) => destruct x
  | _ => solve [auto with raw]
  end.

Lemma getitem_raw {A : Type} (a : list A) (i : nat) :
  raises_only_raw (Np.getitem a i).
Proof. unfold Np.getitem. repeat raw_step. Qed.

Lemma getlast_raw {A : Type} (a : list A) : raises_only_raw (Np.getlast a).
Proof. unfold Np.getlast. destruct a; [auto with raw|apply getitem_raw]. Qed.

Lemma max_raw (a : list Q) : raises_only_raw (Np.max a).
Proof. unfold Np.max. repeat raw_step. Qed.

Lemma argmax_raw (a : list Q) : raises_only_raw (Np.argmax a).
Proof. unfold Np.argmax. repeat raw_step. Qed.

Lemma getmask_raw {A : Type} (a : list A) (mask : list bool) :
  raises_only_raw (Np.getmask a mask).
Proof. unfold Np.getmask. repeat raw_step. Qed.

Lemma sub_raw (a b : list Q) : raises_only_raw (Np.sub a b).
Proof. unfold Np.sub. repeat raw_step. Qed.

Lemma gradient_raw (f x : list Q) : raises_only_raw (Np.gradient f x).
Proof. unfold Np.gradient. repeat raw_step. Qed.

Lemma convolve_same_raw (a v : list Q) : raises_only_raw (Np.convolve_same a v).
Proof. unfold Np.convolve_same. repeat raw_step. Qed.

#[local] Hint Resolve getitem_raw getlast_raw max_raw argmax_raw getmask_raw
  sub_raw gradient_raw convolve_same_raw : raw.

Lemma mapM_raw {A B : Type} (f : A -> result B) (l : list A) :
  (forall x, raises_only_raw (f x)) -> raises_only_raw (mapM f l).
Proof.
  intro Hf. induction l as [|x l IH]; simpl; [auto with raw|].
  apply raises_only_raw_bind; [apply Hf|intro y].
  apply raises_only_raw_bind; [exact IH|intro ys]. auto with raw.
Qed.

Lemma calculate_bandwidth_raw (wavelength transmission : list Q) (threshold : Q) :
  raises_only_raw (_calculate_bandwidth wavelength transmission threshold).
Proof. unfold _calculate_bandwidth. repeat raw_step. Qed.

Lemma cluster_center_raw (wavelength : list Q) (cluster : list nat) :
  raises_only_raw (cluster_center wavelength cluster).
Proof. unfold cluster_center. repeat raw_step. Qed.

Lemma gradient_pass_raw (wavelength transmission : list Q) :
  raises_only_raw (gradient_pass wavelength transmission).
Proof.
  unfold gradient_pass, gradient_smooth.
  apply raises_only_raw_bind; [repeat raw_step|intro smooth].
  destruct (Np.where_ _); [auto with raw|].
  apply mapM_raw. apply cluster_center_raw.
Qed.

Lemma absorption_bands_raw (transmission : list Q) :
  raises_only_raw (absorption_bands transmission).
Proof. unfold absorption_bands. repeat raw_step. Qed.

Lemma add_unique_locations_raw (wavelength : list Q) (bands : list nat) :
  forall defect_locations,
    raises_only_raw (add_unique_locations wavelength bands defect_locations).
Proof.
  induction bands as [|idx bands IH]; intro locs; simpl; [auto with raw|].
  apply raises_only_raw_bind; [auto with raw|intro wl].
  destruct (negb (already_detected wl locs)); apply IH.
Qed.

Lemma detect_defects_raw (wavelength transmission : list Q) :
  raises_only_raw (_detect_defects wavelength transmission).
Proof.
  unfold _detect_defects.
  apply raises_only_raw_bind; [apply gradient_pass_raw|intro grad].
  apply raises_only_raw_bind; [apply absorption_bands_raw|intro bands].
  apply raises_only_raw_bind; [apply add_unique_locations_raw|intro locs].
  auto with raw.
Qed.

Lemma calculate_metrics_raw (sqrt : Q -> Q) (self : QualityClassifier)
  (wavelength transmission : list Q) (sid mat : string) :
  raises_only_raw (calculate_metrics sqrt self wavelength transmission sid mat).
Proof.
  unfold calculate_metrics.
  apply raises_only_raw_bind; [auto with raw|intro peak].
  apply raises_only_raw_bind; [auto with raw|intro ipeak].
  apply raises_only_raw_bind; [auto with raw|intro peak_wavelength].
  apply raises_only_raw_bind; [repeat raw_step|intro r].
  apply raises_only_raw_bind; [apply calculate_bandwidth_raw|intro bw].
  apply raises_only_raw_bind; [repeat raw_step|intro u].
  apply raises_only_raw_bind; [apply detect_defects_raw|intro locs].
  auto with raw.
Qed.

(** C1, as the code has it.  The metrics engine validates nothing and
    catches nothing.  On arrays that are empty or of different lengths it
    fails with the exception of the first numpy operation that rejects them,
    a [ValueError] when the transmission array is empty; and whenever it
    fails, on any input, the exception is a [ValueError] or an [IndexError],
    never [InvalidInput]. *)
Theorem calculate_metrics_raises_raw_exception (sqrt : Q -> Q)
  (self : QualityClassifier) (wavelength transmission : list Q)
  (sid mat : string) :
  (wavelength = [] \/ transmission = [] \/
   length wavelength <> length transmission ->
   exists e,
     calculate_metrics sqrt self wavelength transmission sid mat = Err e /\
     raw_exception e) /\
  (transmission = [] ->
   calculate_metrics sqrt self wavelength transmission sid mat = Err ValueError) /\
  (forall e,
     calculate_metrics sqrt self wavelength transmission sid mat = Err e ->
     e <> InvalidInput).
Proof.
  assert (Hraw := calculate_metrics_raw sqrt self wavelength transmission sid mat).
  split; [|split].
  - intro Hbad.
    destruct (calculate_metrics sqrt self wavelength transmission sid mat)
      as [m|e] eqn:E.
    + exfalso. apply calculate_metrics_Ok_inv in E.
      destruct E as (peak & bw & locs & _ & _ & Hd & _).
      apply detect_defects_Ok_inv in Hd. destruct Hd as [Hl H20].
      destruct Hbad as [->|[->|Hne]]; simpl in *; lia.
    + exists e. split; [reflexivity|]. apply Hraw. reflexivity.
  - intros ->. reflexivity.
  - intros e E. destruct (Hraw e E) as [->| ->]; discriminate.
Qed.

Lemma calculate_metrics_raises_raw_exception_witness :
  exists e,
    calculate_metrics sqrt_approx default_classifier
      [400; 500; 600] [90; 90] "s" "m" = Err e /\
    raw_exception e.
Proof.
  apply (proj1 (calculate_metrics_raises_raw_exception sqrt_approx
                  default_classifier [400; 500; 600] [90; 90]
                  "s"%string "m"%string)).
  right. right. simpl. lia.
Defined.

(** C1, as stated, fails: on empty arrays the engine raises the
    [ValueError] of [np.max], not [InvalidInput]. *)
Lemma calculate_metrics_empty_not_InvalidInput :
  calculate_metrics sqrt_approx default_classifier [] [] "unknown" "unknown"
  = Err ValueError /\
  calculate_metrics sqrt_approx default_classifier [] [] "unknown" "unknown"
  <> Err InvalidInput.
Proof. split; [reflexivity|discriminate]. Qed.

(** * Further properties of the metrics engine *)

(** ** Peak and averages *)



Lemma sum_fold (l : list Q) (a : Q) : fold_left Qplus l a == a + Np.sum l.
Proof.
  unfold Np.sum. revert a. induction l as [|x l IH]; intro a; simpl.
  - ring.
  - rewrite (IH (a + x)), (IH (0 + x)). ring.
Qed.

Lemma sum_cons (x : Q) (l : list Q) : Np.sum (x :: l) == x + Np.sum l.
Proof.
  unfold Np.sum at 1. simpl. rewrite sum_fold. ring.
Qed.

Lemma inject_length_cons {A : Type} (x : A) (l : list A) :
  inject_Z (Z.of_nat (length (x :: l))) == 1 + inject_Z (Z.of_nat (length l)).
Proof.
  simpl length. rewrite Nat2Z.inj_succ. unfold Z.succ.
  rewrite inject_Z_plus. ring.
Qed.

Lemma sum_bounds (lo hi : Q) (l : list Q) :
  Forall (fun t => lo <= t /\ t <= hi) l ->
  inject_Z (Z.of_nat (length l)) * lo <= Np.sum l /\
  Np.sum l <= inject_Z (Z.of_nat (length l)) * hi.
Proof.
  induction 1 as [|x l [Hlo Hhi] _ [IHlo IHhi]].
  - vm_compute. split; discriminate.
  - rewrite sum_cons, inject_length_cons. split; nra.
Qed.






(** ** When the engine returns *)

Lemma argmax_from_lt (rest : list Q) (i best : nat) (m : Q) :
  (best < i)%nat -> (Np.argmax_from rest i best m < i + length rest)%nat.
Proof.
  revert i best m. induction rest as [|y rest IH]; intros i best m Hb; simpl.
  - lia.
  - destruct (Qltb m y).
    + specialize (IH (S i) i y). lia.
    + specialize (IH (S i) best m). lia.
Qed.

Lemma argmax_lt (a : list Q) (i : nat) :
  Np.argmax a = Ok i -> (i < length a)%nat.
Proof.
  unfold Np.argmax. destruct a as [|x rest]; [discriminate|].
  intro H. injection H as <-.
  pose proof (argmax_from_lt rest 1 0 x). simpl. lia.
Qed.

Lemma calculate_bandwidth_total (wavelength transmission : list Q) (threshold : Q) :
  length wavelength = length transmission ->
  exists b, _calculate_bandwidth wavelength transmission threshold = Ok b.
Proof.
  intro Hlen.
  set (mask := map (fun t => Qgeb t threshold) transmission).
  destruct (Np.where_ mask) as [|h rest] eqn:Ew.
  - exists 0. unfold _calculate_bandwidth. fold mask.
    rewrite (where_nil_any _ Ew). reflexivity.
  - destruct (exists_last (l := h :: rest)) as (init & l & El); [discriminate|].
    assert (Hh : In h (Np.where_ mask)) by (rewrite Ew; left; reflexivity).
    assert (Hl : In l (Np.where_ mask)).
    { rewrite Ew, El. apply in_or_app. right. left. reflexivity. }
    apply where_lt in Hh, Hl. unfold mask in Hh, Hl.
    rewrite length_map, <- Hlen in Hh, Hl.
    destruct (nth_error wavelength h) as [lo|] eqn:Elo;
      [|apply nth_error_None in Elo; lia].
    destruct (nth_error wavelength l) as [hi|] eqn:Ehi;
      [|apply nth_error_None in Ehi; lia].
    exists (hi - lo).
    apply calculate_bandwidth_ends with (ifirst := h) (ilast := l)
      (rest := rest) (init := init); fold mask; congruence.
Qed.

Lemma calculate_metrics_total (sqrt : Q -> Q) (self : QualityClassifier)
  (wavelength transmission : list Q) (sid mat : string) :
  length wavelength = length transmission ->
  (20 <= length transmission)%nat ->
  exists m, calculate_metrics sqrt self wavelength transmission sid mat = Ok m.
Proof.
  intros Hl H20. unfold calculate_metrics.
  destruct transmission as [|t0 trest] eqn:Et; [simpl in H20; lia|].
  rewrite <- Et in *.
  assert (Hmax : exists p, Np.max transmission = Ok p)
    by (rewrite Et; eexists; reflexivity).
  destruct Hmax as (p & ->). cbn [bind].
  assert (Harg : exists i, Np.argmax transmission = Ok i)
    by (rewrite Et; eexists; reflexivity).
  destruct Harg as (i & Ei). rewrite Ei. cbn [bind].
  apply argmax_lt in Ei. rewrite <- Hl in Ei.
  destruct (getitem_lt wavelength _ Ei) as (pw & ->). cbn [bind].
  assert (Hmask : Np.getmask transmission (visible_mask wavelength)
                  = Ok (Np.select transmission (visible_mask wavelength))).
  { apply getmask_Ok. rewrite visible_mask_length. auto. }
  destruct (calculate_bandwidth_total wavelength transmission
              (bandwidth_threshold self) Hl) as (bw & Ebw).
  destruct (detect_defects_total _ _ Hl H20) as (locs & Ed).
  destruct (Np.any (visible_mask wavelength)).
  - rewrite Hmask. cbn [bind]. rewrite Ebw. cbn [bind]. rewrite Ed. cbn [bind].
    eexists. reflexivity.
  - cbn [bind]. rewrite Ebw. cbn [bind]. rewrite Ed. cbn [bind].
    eexists. reflexivity.
Qed.

(** X1. The metrics engine returns a record exactly on arrays of equal length
    with at least 20 points; on every other input it raises. *)
Theorem calculate_metrics_returns_iff (sqrt : Q -> Q) (self : QualityClassifier)
  (wavelength transmission : list Q) (sid mat : string) :
  (exists m, calculate_metrics sqrt self wavelength transmission sid mat = Ok m)
  <-> length wavelength = length transmission /\ (20 <= length transmission)%nat.
Proof.
  split.
  - intros (m & H). apply calculate_metrics_Ok_inv in H.
    destruct H as (peak & bw & locs & _ & _ & Hd & _).
    eapply detect_defects_Ok_inv. exact Hd.
  - intros [Hl H20]. apply calculate_metrics_total; assumption.
Qed.

(** X2. The defect detector returns exactly on arrays of equal length with at
    least 20 points.  It raises [ValueError] when the lengths differ, and
    also on equal lengths from 2 to 19. *)
Theorem detect_defects_returns_iff (wavelength transmission : list Q) :
  ((exists out, _detect_defects wavelength transmission = Ok out)
   <-> length wavelength = length transmission /\ (20 <= length transmission)%nat) /\
  (length wavelength <> length transmission ->
   _detect_defects wavelength transmission = Err ValueError) /\
  (length wavelength = length transmission ->
   (2 <= length transmission < 20)%nat ->
   _detect_defects wavelength transmission = Err ValueError).
Proof.
  split; [split|split].
  - intros (out & H). eapply detect_defects_Ok_inv. exact H.
  - intros [Hl H20]. apply detect_defects_total; assumption.
  - apply detect_defects_mismatch.
  - intros Hl H. apply detect_defects_short_raises; assumption.
Qed.

Lemma detect_defects_returns_iff_witness :
  _detect_defects dip_wavelength [95; 95; 40] = Err ValueError.
Proof.
  apply (proj1 (proj2 (detect_defects_returns_iff dip_wavelength [95; 95; 40]))).
  simpl. lia.
Defined.

(** ** Notes of a record *)




(** ** Bandwidth on ascending wavelengths *)

Lemma calculate_bandwidth_Ok_inv (wavelength transmission : list Q)
  (threshold b : Q) :
  _calculate_bandwidth wavelength transmission threshold = Ok b ->
  (Np.where_ (map (fun t => Qgeb t threshold) transmission) = [] /\ b = 0) \/
  (exists h rest init l lo hi,
     Np.where_ (map (fun t => Qgeb t threshold) transmission) = h :: rest /\
     Np.where_ (map (fun t => Qgeb t threshold) transmission) = init ++ [l] /\
     nth_error wavelength h = Some lo /\
     nth_error wavelength l = Some hi /\
     b = hi - lo).
Proof.
  unfold _calculate_bandwidth.
  set (mask := map (fun t => Qgeb t threshold) transmission).
  destruct (Np.any mask) eqn:Eany; simpl negb; cbv iota.
  2:{ intro H. injection H as <-. left. split; [apply any_false_where; exact Eany|reflexivity]. }
  destruct (Np.where_ mask) as [|h rest] eqn:Ew.
  { intro H. injection H as <-. left. auto. }
  simpl Nat.eqb. cbv iota. intro H.
  inv_bind H. inv_bind H. inv_bind H. inv_bind H. injection H as <-.
  apply getlast_Ok in Hx. destruct Hx as (init & Einit).
  apply getitem_Ok in Hx0, Hx1, Hx2. simpl in Hx1. injection Hx1 as <-.
  right. exists h, rest, init, x, x2, x0. auto.
Qed.

Lemma ascending_nth (l : list Q) (i j : nat) (a b : Q) :
  StronglySorted Qle l -> (i <= j)%nat ->
  nth_error l i = Some a -> nth_error l j = Some b -> a <= b.
Proof.
  intro Hs. revert i j. induction Hs as [|x l Hs IH Hall]; intros i j Hij Hi Hj.
  - destruct i; discriminate.
  - destruct i as [|i]; destruct j as [|j]; simpl in *; try lia.
    + injection Hi as <-. injection Hj as <-. lra.
    + injection Hi as <-. rewrite Forall_forall in Hall. apply Hall.
      eapply nth_error_In. exact Hj.
    + apply (IH i j); [lia|assumption|assumption].
Qed.

Lemma where_ends_ordered (mask : list bool) (h l : nat) (rest init : list nat) :
  Np.where_ mask = h :: rest -> Np.where_ mask = init ++ [l] -> (h <= l)%nat.
Proof.
  intros Eh El. pose proof (where_from_sorted mask 0) as Hs.
  fold (Np.where_ mask) in Hs. rewrite Eh in Hs.
  apply (sorted_head_least h rest l Hs).
  rewrite <- Eh, El. apply in_or_app. right. left. reflexivity.
Qed.

Lemma calculate_bandwidth_nonneg (wavelength transmission : list Q)
  (threshold b : Q) :
  StronglySorted Qle wavelength ->
  _calculate_bandwidth wavelength transmission threshold = Ok b -> 0 <= b.
Proof.
  intros Hs H. apply calculate_bandwidth_Ok_inv in H.
  destruct H as [[_ ->]|(h & rest & init & l & lo & hi & Eh & El & Hlo & Hhi & ->)];
    [lra|].
  pose proof (where_ends_ordered _ _ _ _ _ Eh El) as Hhl.
  pose proof (ascending_nth _ _ _ _ _ Hs Hhl Hlo Hhi). lra.
Qed.

(** X5. On ascending wavelengths the bandwidth is not negative and not larger
    than the span from the first to the last wavelength. *)
Theorem calculate_bandwidth_within_span (wavelength transmission : list Q)
  (threshold b : Q) :
  StronglySorted Qle wavelength ->
  _calculate_bandwidth wavelength transmission threshold = Ok b ->
  0 <= b /\
  forall first last,
    nth_error wavelength 0 = Some first ->
    nth_error wavelength (length wavelength - 1) = Some last ->
    b <= last - first.
Proof.
  intros Hs H. split; [eapply calculate_bandwidth_nonneg; eauto|].
  intros first last Hf Hlast.
  apply calculate_bandwidth_Ok_inv in H.
  destruct H as [[_ ->]|(h & rest & init & l & lo & hi & Eh & El & Hlo & Hhi & ->)].
  - assert (first <= last); [|lra].
    apply (ascending_nth wavelength 0 (length wavelength - 1)); auto. lia.
  - assert (Hl : (l <= length wavelength - 1)%nat).
    { assert (l < length wavelength)%nat by (apply nth_error_Some; congruence). lia. }
    pose proof (ascending_nth _ _ _ _ _ Hs (Nat.le_0_l h) Hf Hlo).
    pose proof (ascending_nth _ _ _ _ _ Hs Hl Hhi Hlast). lra.
Qed.

Lemma calculate_bandwidth_within_span_witness :
  0 <= 800 - 600 /\
  forall first last,
    nth_error [500; 600; 700; 800; 900] 0 = Some first ->
    nth_error [500; 600; 700; 800; 900] (length [500; 600; 700; 800; 900] - 1)
    = Some last ->
    800 - 600 <= last - first.
Proof.
  apply (calculate_bandwidth_within_span
           [500; 600; 700; 800; 900] [60; 85; 40; 90; 70] 80 (800 - 600)).
  - repeat constructor; unfold Qle; simpl; lia.
  - reflexivity.
Defined.

(** X6. On ascending wavelengths a higher threshold never widens the band. *)
Theorem calculate_bandwidth_antitone (wavelength transmission : list Q)
  (t1 t2 b1 b2 : Q) :
  StronglySorted Qle wavelength ->
  t1 <= t2 ->
  _calculate_bandwidth wavelength transmission t1 = Ok b1 ->
  _calculate_bandwidth wavelength transmission t2 = Ok b2 ->
  b2 <= b1.
Proof.
  intros Hs Ht H1 H2.
  pose proof (calculate_bandwidth_nonneg _ _ _ _ Hs H1) as Hnn.
  apply calculate_bandwidth_Ok_inv in H2.
  destruct H2 as [[_ ->]|(h2 & rest2 & init2 & l2 & lo2 & hi2 & Eh2 & El2 & Hlo2 & Hhi2 & ->)];
    [exact Hnn|].
  assert (Hsub : forall i,
            In i (Np.where_ (map (fun t => Qgeb t t2) transmission)) ->
            In i (Np.where_ (map (fun t => Qgeb t t1) transmission))).
  { intros i Hi. apply above_threshold_qualifies in Hi.
    apply above_threshold_qualifies. destruct Hi as (t & Et & Hle).
    exists t. split; [exact Et|lra]. }
  assert (Hh2 : In h2 (Np.where_ (map (fun t => Qgeb t t1) transmission))).
  { apply Hsub. rewrite Eh2. left. reflexivity. }
  assert (Hl2 : In l2 (Np.where_ (map (fun t => Qgeb t t1) transmission))).
  { apply Hsub. rewrite El2. apply in_or_app. right. left. reflexivity. }
  apply calculate_bandwidth_Ok_inv in H1.
  destruct H1 as [[E _]|(h1 & rest1 & init1 & l1 & lo1 & hi1 & Eh1 & El1 & Hlo1 & Hhi1 & ->)].
  { rewrite E in Hh2. contradiction. }
  pose proof (where_from_sorted (map (fun t => Qgeb t t1) transmission) 0) as Hsorted.
  fold (Np.where_ (map (fun t => Qgeb t t1) transmission)) in Hsorted.
  assert (Hhh : (h1 <= h2)%nat).
  { rewrite Eh1 in Hsorted, Hh2. eapply sorted_head_least; eauto. }
  assert (Hll : (l2 <= l1)%nat).
  { rewrite El1 in Hsorted, Hl2. eapply sorted_last_greatest; eauto. }
  pose proof (ascending_nth _ _ _ _ _ Hs Hhh Hlo1 Hlo2).
  pose proof (ascending_nth _ _ _ _ _ Hs Hll Hhi2 Hhi1). lra.
Qed.

Lemma calculate_bandwidth_antitone_witness : 800 - 800 <= 800 - 600.
Proof.
  apply (calculate_bandwidth_antitone
           [500; 600; 700; 800; 900] [60; 85; 40; 90; 70] 80 88).
  - repeat constructor; unfold Qle; simpl; lia.
  - unfold Qle; simpl; lia.
  - reflexivity.
  - reflexivity.
Defined.

(** ** Clusters of the gradient pass *)

Lemma chain_snoc (R : nat -> nat -> Prop) (l : list nat) (d : nat) :
  chain R l -> (l <> [] -> R (last l 0%nat) d) -> chain R (l ++ [d]).
Proof.
  induction l as [|a [|b l] IH]; intros Hc Hl.
  - exact I.
  - simpl. split; [apply Hl; discriminate|exact I].
  - destruct Hc as [Hab Hc]. change ((a :: b :: l) ++ [d]) with (a :: (b :: l) ++ [d]).
    change (chain R (a :: (b :: l) ++ [d]))
      with (R a b /\ chain R ((b :: l) ++ [d])).
    split; [exact Hab|]. apply IH; [exact Hc|]. intros _. apply Hl. discriminate.
Qed.

Lemma last_snoc (l : list nat) (d : nat) : last (l ++ [d]) 0%nat = d.
Proof. apply last_last. Qed.

Lemma cluster_loop_spec (rest : list nat) :
  forall prev current clusters,
    current <> [] -> last current 0%nat = prev -> chain gap_below_ten current ->
    exists c tl,
      cluster_loop prev rest current clusters = clusters ++ c :: tl /\
      (exists suffix, c = current ++ suffix) /\
      concat (c :: tl) = current ++ rest /\
      Forall (fun c => c <> [] /\ chain gap_below_ten c) (c :: tl) /\
      clusters_apart (c :: tl).
Proof.
  induction rest as [|d rest IH]; intros prev current clusters Hne Hlast Hchain.
  - exists current, []. simpl. rewrite !app_nil_r.
    split; [reflexivity|]. split; [exists []; rewrite app_nil_r; reflexivity|].
    split; [reflexivity|]. split; [constructor; [auto|constructor]|exact I].
  - simpl cluster_loop.
    destruct (Z.of_nat d - Z.of_nat prev <? 10)%Z eqn:E.
    + apply Z.ltb_lt in E.
      destruct (IH d (current ++ [d]) clusters) as (c & tl & Eq & (suf & Ec) & Hcat & Hall & Hap).
      * destruct current; discriminate.
      * apply last_snoc.
      * apply chain_snoc; [exact Hchain|]. intros _. rewrite Hlast. exact E.
      * exists c, tl. split; [exact Eq|].
        split; [exists (d :: suf); rewrite Ec, <- app_assoc; reflexivity|].
        split; [rewrite Hcat, <- app_assoc; reflexivity|]. split; assumption.
    + apply Z.ltb_ge in E.
      destruct (IH d [d] (clusters ++ [current])) as (c & tl & Eq & (suf & Ec) & Hcat & Hall & Hap).
      * discriminate.
      * reflexivity.
      * exact I.
      * exists current, (c :: tl). split; [rewrite Eq, <- app_assoc; reflexivity|].
        split; [exists []; rewrite app_nil_r; reflexivity|].
        split; [change (concat (current :: c :: tl)) with (current ++ concat (c :: tl));
                rewrite Hcat; reflexivity|].
        split; [constructor; [auto|exact Hall]|].
        split; [|exact Hap]. rewrite Ec, Hlast. simpl. exact E.
Qed.

Lemma mapM_Forall2 {A B : Type} (f : A -> result B) (l : list A) :
  forall ys, mapM f l = Ok ys -> Forall2 (fun x y => f x = Ok y) l ys.
Proof.
  induction l as [|x l IH]; simpl; intros ys H.
  - injection H as <-. constructor.
  - inv_bind H. inv_bind H. injection H as <-. constructor; auto.
Qed.

Lemma cluster_center_Ok (wavelength : list Q) (cluster : list nat) (wl : Q) :
  cluster_center wavelength cluster = Ok wl ->
  In (nth (length cluster / 2) cluster 0%nat) cluster /\
  nth_error wavelength (nth (length cluster / 2) cluster 0%nat) = Some wl.
Proof.
  unfold cluster_center. intro H. inv_bind H.
  apply getitem_Ok in Hx, H.
  assert (E : nth (length cluster / 2) cluster 0%nat = x)
    by (apply nth_error_nth; exact Hx).
  rewrite E. split; [eapply nth_error_In; exact Hx|exact H].
Qed.



(** ** No location is reported twice *)

Lemma strictly_ascending_nth (l : list Q) (i j : nat) (a b : Q) :
  StronglySorted Qlt l -> (i < j)%nat ->
  nth_error l i = Some a -> nth_error l j = Some b -> a < b.
Proof.
  intro Hs. revert i j. induction Hs as [|x l Hs IH Hall]; intros i j Hij Hi Hj.
  - destruct i; discriminate.
  - destruct j as [|j]; [lia|]. destruct i as [|i]; simpl in *.
    + injection Hi as <-. rewrite Forall_forall in Hall. apply Hall.
      eapply nth_error_In. exact Hj.
    + apply (IH i j); [lia|assumption|assumption].
Qed.

Lemma sorted_app_lt (l1 l2 : list nat) (i j : nat) :
  StronglySorted lt (l1 ++ l2) -> In i l1 -> In j l2 -> (i < j)%nat.
Proof.
  induction l1 as [|x l1 IH]; simpl; intros Hs Hi Hj; [contradiction|].
  inversion Hs as [|? ? Hs' Hall]; subst.
  destruct Hi as [->|Hi]; [|auto].
  rewrite Forall_forall in Hall. apply Hall. apply in_or_app. right. exact Hj.
Qed.

Lemma sorted_app_r (l1 l2 : list nat) :
  StronglySorted lt (l1 ++ l2) -> StronglySorted lt l2.
Proof.
  induction l1 as [|x l1 IH]; simpl; intro Hs; [exact Hs|].
  inversion Hs; subst. auto.
Qed.

Lemma centers_strictly_ascending (wavelength : list Q)
  (clusters : list (list nat)) (grad : list Q) :
  StronglySorted Qlt wavelength ->
  StronglySorted lt (concat clusters) ->
  Forall2 (fun c wl => exists i, In i c /\ nth_error wavelength i = Some wl)
          clusters grad ->
  StronglySorted Qlt grad.
Proof.
  intros Hw Hs H. induction H as [|c wl clusters grad (i & Hi & Hn) H IH].
  - constructor.
  - simpl in Hs. constructor; [apply IH; eapply sorted_app_r; exact Hs|].
    apply Forall_forall. intros w Hwin.
    clear IH. induction H as [|c' w' clusters grad (j & Hj & Hnj) H IH'].
    + contradiction.
    + simpl in Hs. destruct Hwin as [<-|Hwin].
      * apply (strictly_ascending_nth wavelength i j); auto.
        apply (sorted_app_lt c (c' ++ concat clusters)); auto.
        apply in_or_app. left. exact Hj.
      * apply IH'; [|exact Hwin].
        clear - Hs. induction c as [|x c IHc]; simpl in *.
        -- eapply sorted_app_r. exact Hs.
        -- inversion Hs as [|? ? Hs' Hall]; subst. constructor; [auto|].
           rewrite Forall_forall in *. intros y Hy. apply Hall.
           apply in_app_or in Hy. apply in_or_app.
           destruct Hy as [Hy|Hy]; [left; exact Hy|].
           right. apply in_or_app. right. exact Hy.
Qed.

Lemma gradient_pass_strictly_ascending (wavelength transmission grad : list Q) :
  StronglySorted Qlt wavelength ->
  gradient_pass wavelength transmission = Ok grad ->
  StronglySorted Qlt grad.
Proof.
  intros Hw H. unfold gradient_pass in H. inv_bind H.
  pose proof (where_from_sorted
                (map (fun g => Qltb g (- DEFECT_GRADIENT_THRESHOLD)) x) 0) as Hs.
  fold (Np.where_ (map (fun g => Qltb g (- DEFECT_GRADIENT_THRESHOLD)) x)) in Hs.
  destruct (Np.where_ _) as [|d0 rest].
  - injection H as <-. constructor.
  - destruct (cluster_loop_spec rest d0 [d0] []) as (c & tl & Eq & _ & Hcat & _ & _);
      [discriminate|reflexivity|exact I|].
    simpl app in Eq. rewrite Eq in H. apply mapM_Forall2 in H.
    apply (centers_strictly_ascending wavelength (c :: tl)); auto.
    + rewrite Hcat. exact Hs.
    + eapply Forall2_impl; [|exact H]. intros cl wl Hc.
      apply cluster_center_Ok in Hc. eauto.
Qed.

Lemma Qabs_far_neq (a b : Q) : 50 <= Qabs (a - b) -> ~ a == b.
Proof.
  intros H E. assert (E0 : a - b == 0) by (rewrite E; ring).
  rewrite E0 in H. revert H. vm_compute. intro H. apply H. reflexivity.
Qed.

Lemma insert_sorted_strict (x : Q) (l : list Q) :
  StronglySorted Qlt l -> Forall (fun y => ~ x == y) l ->
  StronglySorted Qlt (insert_sorted x l).
Proof.
  induction l as [|z l IH]; simpl; intros Hs Hd.
  - constructor; constructor.
  - inversion Hs as [|? ? Hs' Hall]; subst. inversion Hd as [|? ? Hxz Hd']; subst.
    destruct (Qleb x z) eqn:E.
    + apply Qleb_le in E.
      assert (x < z) by (apply Qle_lteq in E; destruct E; [assumption|contradiction]).
      constructor; [assumption|]. constructor; [assumption|].
      eapply Forall_impl; [|exact Hall]. intros a Ha. lra.
    + apply Qleb_nle in E. constructor; [auto|].
      apply Forall_forall. intros a Ha. apply insert_sorted_In in Ha.
      destruct Ha as [->|Ha]; [lra|].
      rewrite Forall_forall in Hall. auto.
Qed.

Lemma sorted_strict (l : list Q) :
  ForallOrdPairs (fun a b => ~ a == b) l -> StronglySorted Qlt (sorted l).
Proof.
  induction 1 as [|x l Hx _ IH]; simpl; [constructor|].
  apply insert_sorted_strict; [exact IH|].
  rewrite Forall_forall in *. intros y Hy. apply Hx.
  apply (proj1 (sorted_In _ _)). exact Hy.
Qed.

Lemma strictly_ascending_distinct (l : list Q) :
  StronglySorted Qlt l -> ForallOrdPairs (fun a b => ~ a == b) l.
Proof.
  induction 1 as [|x l _ IH Hall]; constructor; [|exact IH].
  eapply Forall_impl; [|exact Hall]. intros a Ha E. rewrite E in Ha.
  exact (Qlt_irrefl _ Ha).
Qed.

Lemma distinct_app (l1 l2 : list Q) :
  ForallOrdPairs (fun a b => ~ a == b) l1 ->
  ForallOrdPairs (fun a b => ~ a == b) l2 ->
  (forall a b, In a l1 -> In b l2 -> ~ a == b) ->
  ForallOrdPairs (fun a b => ~ a == b) (l1 ++ l2).
Proof.
  induction 1 as [|x l1 Hx _ IH]; simpl; intros H2 Hc; [exact H2|].
  constructor.
  - apply Forall_app. split; [exact Hx|].
    apply Forall_forall. intros b Hb. apply Hc; [left; reflexivity|exact Hb].
  - apply IH; [exact H2|]. intros a b Ha Hb. apply Hc; [right; exact Ha|exact Hb].
Qed.

(** X8. On strictly increasing wavelengths the defect detector returns a
    strictly ascending list: no location is reported twice. *)
Theorem detect_defects_strictly_ascending (wavelength transmission out : list Q) :
  StronglySorted Qlt wavelength ->
  _detect_defects wavelength transmission = Ok out ->
  StronglySorted Qlt out.
Proof.
  intros Hw H. unfold _detect_defects in H.
  inv_bind H. inv_bind H. inv_bind H. injection H as <-.
  apply gradient_pass_strictly_ascending in Hx; [|exact Hw].
  destruct (add_unique_locations_spec _ _ _ _ Hx1)
    as (added & -> & _ & Hfar & Hpair & _).
  apply sorted_strict. apply distinct_app.
  - apply strictly_ascending_distinct. exact Hx.
  - clear - Hpair. induction Hpair as [|a l Ha _ IH]; constructor; [|exact IH].
    eapply Forall_impl; [|exact Ha]. intros b Hb E.
    apply (Qabs_far_neq b a); [exact Hb|]. symmetry. exact E.
  - intros a b Ha Hb E. rewrite Forall_forall in Hfar.
    apply (Qabs_far_neq b a); [apply Hfar; assumption|]. symmetry. exact E.
Qed.

Lemma detect_defects_strictly_ascending_witness :
  StronglySorted Qlt [400; 800].
Proof.
  apply (detect_defects_strictly_ascending twin_dip_wavelength two_dip_transmission).
  - vm_compute. repeat constructor.
  - vm_compute. reflexivity.
Defined.

(** ** A flat spectrum *)

Lemma In_firstn {A : Type} (n : nat) (l : list A) (x : A) :
  In x (firstn n l) -> In x l.
Proof.
  intro H. rewrite <- (firstn_skipn n l). apply in_or_app. left. exact H.
Qed.

Lemma In_skipn {A : Type} (n : nat) (l : list A) (x : A) :
  In x (skipn n l) -> In x l.
Proof.
  intro H. rewrite <- (firstn_skipn n l). apply in_or_app. right. exact H.
Qed.

Lemma sum_zero (l : list Q) : Forall (fun t => t == 0) l -> Np.sum l == 0.
Proof.
  induction 1 as [|x l Hx _ IH]; [reflexivity|].
  rewrite sum_cons, Hx, IH. reflexivity.
Qed.

Lemma where_from_all_false (mask : list bool) (k : nat) :
  Forall (fun b => b = false) mask -> Np.where_from k mask = [].
Proof.
  intro H. revert k. induction H as [|b mask -> _ IH]; intro k; simpl; auto.
Qed.

Lemma where_none (P : Q -> bool) (l : list Q) :
  Forall (fun x => P x = false) l -> Np.where_ (map P l) = [].
Proof.
  intro H. apply where_from_all_false. apply Forall_map. exact H.
Qed.

Lemma nth_repeat_cases (c : Q) (n k : nat) :
  nth k (repeat c n) 0 = c \/ nth k (repeat c n) 0 = 0.
Proof.
  destruct (Nat.lt_ge_cases k n) as [H|H].
  - left. apply nth_repeat_lt. exact H.
  - right. apply nth_overflow. rewrite repeat_length. exact H.
Qed.

Lemma diff_positive (x : list Q) :
  StronglySorted Qlt x -> Forall (fun d => 0 < d) (Np.diff x).
Proof.
  induction 1 as [|a l Hs IH Hall]; [constructor|].
  destruct l as [|b l]; [constructor|].
  change (Np.diff (a :: b :: l)) with ((b - a) :: Np.diff (b :: l)).
  constructor; [|exact IH]. inversion Hall; subst. lra.
Qed.

Lemma interior_uniform_flat (h c : Q) (n : nat) :
  Forall (fun g => g == 0) (Np.interior_uniform h (repeat c n)).
Proof.
  induction n as [|n IH]; [constructor|].
  destruct n as [|[|k]]; try constructor.
  - unfold Qdiv. ring.
  - exact IH.
Qed.

Lemma interior_nonuniform_flat (c : Q) (n : nat) :
  forall dx, Forall (fun d => 0 < d) dx ->
  Forall (fun g => g == 0) (Np.interior_nonuniform (repeat c n) dx).
Proof.
  induction n as [|n IH]; intros dx Hdx; [constructor|].
  destruct n as [|[|k]]; destruct dx as [|dx1 [|dx2 dx']]; try constructor.
  - inversion Hdx as [|? ? H1 Hdx']; subst. inversion Hdx' as [|? ? H2 _]; subst.
    field. repeat split; lra.
  - apply (IH (dx2 :: dx')). inversion Hdx. assumption.
Qed.

Lemma gradient_flat (x : list Q) (c : Q) (g : list Q) :
  StronglySorted Qlt x ->
  Np.gradient (repeat c (length x)) x = Ok g ->
  Forall (fun v => v == 0) g.
Proof.
  intros Hs H. unfold Np.gradient in H.
  rewrite repeat_length, Nat.eqb_refl in H. simpl negb in H. cbv iota in H.
  pose proof (diff_positive _ Hs) as Hpos.
  destruct (Np.diff x) as [|d0 ds]; [discriminate|].
  destruct (Nat.ltb (length x) 2) eqn:E2; [discriminate|].
  apply Nat.ltb_ge in E2.
  assert (Hf : Np.edge_first (repeat c (length x)) d0 == 0).
  { unfold Np.edge_first. rewrite !nth_repeat_lt by lia. unfold Qdiv. ring. }
  assert (Hl : forall d, Np.edge_last (repeat c (length x)) d == 0).
  { intro d. unfold Np.edge_last. rewrite repeat_length.
    rewrite !nth_repeat_lt by lia. unfold Qdiv. ring. }
  destruct (forallb (fun d => Qeq_bool d d0) (d0 :: ds)); injection H as <-;
    (constructor; [exact Hf|]); apply Forall_app;
    (split; [|constructor; [apply Hl|constructor]]).
  - apply interior_uniform_flat.
  - apply interior_nonuniform_flat. exact Hpos.
Qed.

Lemma convolve_at_zero (a v : list Q) (k : nat) :
  Forall (fun t => t == 0) a -> Np.convolve_at a v k == 0.
Proof.
  intro Ha. unfold Np.convolve_at. apply sum_zero. apply Forall_map.
  apply Forall_forall. intros m _.
  destruct (Nat.leb m k); [|reflexivity].
  assert (E : nth (k - m) a 0 == 0).
  { destruct (nth_in_or_default (k - m) a 0) as [Hin | ->]; [|reflexivity].
    rewrite Forall_forall in Ha. apply Ha. exact Hin. }
  rewrite E. ring.
Qed.

Lemma convolve_same_entries (a v c : list Q) :
  (length v <= length a)%nat ->
  Np.convolve_same a v = Ok c ->
  forall x, In x c -> exists k, x = Np.convolve_at a v k.
Proof.
  intros Hle H x Hx.
  assert (E : c = firstn (length a)
                    (skipn ((length v - 1) / 2) (Np.convolve_full a v))).
  { unfold Np.convolve_same in H.
    replace (Nat.ltb (length a) (length v)) with false in H
      by (symmetry; apply Nat.ltb_ge; exact Hle).
    remember (firstn (length a)
                (skipn ((length v - 1) / 2) (Np.convolve_full a v))) as r.
    destruct a as [|a0 a']; [discriminate|].
    destruct v as [|v0 v']; [discriminate|].
    injection H as <-. reflexivity. }
  subst c. apply In_firstn, In_skipn in Hx. unfold Np.convolve_full in Hx.
  apply in_map_iff in Hx. destruct Hx as (k & <- & _). exists k. reflexivity.
Qed.

Lemma gradient_smooth_flat (x : list Q) (c : Q) (smooth : list Q) :
  StronglySorted Qlt x -> (20 <= length x)%nat ->
  gradient_smooth x (repeat c (length x)) = Ok smooth ->
  Forall (fun v => v == 0) smooth.
Proof.
  intros Hs H20 H. unfold gradient_smooth in H. inv_bind H.
  pose proof (gradient_Ok_inv _ _ _ Hx0) as (_ & _ & Hlen).
  rewrite repeat_length in Hlen.
  apply gradient_flat in Hx0; [|exact Hs].
  destruct (Nat.ltb 1 (Nat.min 5 (length x0 / 10))); [|injection H as <-; exact Hx0].
  assert (Hle : (length (Np.ones_over (Nat.min 5 (length x0 / 10))) <= length x0)%nat).
  { rewrite ones_over_length. lia. }
  apply Forall_forall. intros v Hv.
  destruct (convolve_same_entries _ _ _ Hle H v Hv) as (k & ->).
  apply convolve_at_zero. exact Hx0.
Qed.

Lemma gradient_pass_flat (x : list Q) (c : Q) :
  StronglySorted Qlt x -> (20 <= length x)%nat ->
  gradient_pass x (repeat c (length x)) = Ok [].
Proof.
  intros Hs H20.
  assert (Hl : length x = length (repeat c (length x)))
    by (rewrite repeat_length; reflexivity).
  assert (H2 : (2 <= length (repeat c (length x)))%nat)
    by (rewrite repeat_length; lia).
  destruct (gradient_smooth_total _ _ Hl H2) as (smooth & Es).
  unfold gradient_pass. rewrite Es. cbn [bind].
  apply gradient_smooth_flat in Es; [|exact Hs|exact H20].
  rewrite where_none; [reflexivity|].
  eapply Forall_impl; [|exact Es]. intros g Hg.
  apply Qltb_nlt. rewrite Hg. vm_compute. discriminate.
Qed.

Lemma local_mean_flat (c : Q) (n k : nat) :
  0 <= c ->
  0 <= Np.convolve_at (repeat c n) (Np.ones_over 20) k /\
  Np.convolve_at (repeat c n) (Np.ones_over 20) k <= c.
Proof.
  intro Hc. unfold Np.convolve_at. rewrite ones_over_length.
  set (terms := map _ (seq 0 20)).
  assert (Hterms : Forall (fun t => 0 <= t /\ t <= c / 20) terms).
  { unfold terms. apply Forall_map. apply Forall_forall. intros m Hm.
    apply in_seq in Hm.
    assert (Hc20 : c / 20 == c * (1 # 20)) by (unfold Qdiv; reflexivity).
    destruct (Nat.leb m k); [|rewrite Hc20; split; lra].
    assert (Eo : nth m (Np.ones_over 20) 0 == 1 # 20).
    { unfold Np.ones_over. rewrite nth_repeat_lt by lia. reflexivity. }
    rewrite Eo, Hc20.
    destruct (nth_repeat_cases c n (k - m)) as [-> | ->]; split; lra. }
  assert (Hlen : length terms = 20%nat)
    by (unfold terms; rewrite length_map, length_seq; reflexivity).
  destruct (sum_bounds _ _ _ Hterms) as [Hlo Hhi]. rewrite Hlen in Hlo, Hhi.
  change (inject_Z (Z.of_nat 20)) with 20 in Hlo, Hhi.
  assert (E : 20 * (c / 20) == c) by (field).
  rewrite E in Hhi. split; lra.
Qed.

Lemma absorption_bands_flat (c : Q) (n : nat) :
  (20 <= n)%nat -> 0 <= c -> absorption_bands (repeat c n) = Ok [].
Proof.
  intros H20 Hc. unfold absorption_bands.
  assert (Ht0 : repeat c n <> []) by (destruct n; [lia|discriminate]).
  assert (Hk0 : Np.ones_over 20 <> []) by discriminate.
  destruct (convolve_same_Ok _ _ Ht0 Hk0) as (lm & Elm & Llm).
  rewrite Elm. cbn [bind].
  rewrite ones_over_length, repeat_length in Llm.
  assert (Hlm : Forall (fun v => 0 <= v /\ v <= c) lm).
  { assert (Hle : (length (Np.ones_over 20) <= length (repeat c n))%nat).
    { rewrite ones_over_length, repeat_length. exact H20. }
    apply Forall_forall. intros v Hv.
    destruct (convolve_same_entries _ _ _ Hle Elm v Hv) as (k & ->).
    apply local_mean_flat. exact Hc. }
  unfold Np.sub. rewrite repeat_length.
  replace (Nat.eqb n (length lm)) with true by (symmetry; apply Nat.eqb_eq; lia).
  cbn [bind]. rewrite where_none; [reflexivity|].
  apply Forall_map. apply Forall_forall. intros [a b] Hab. simpl.
  pose proof (in_combine_l _ _ _ _ Hab) as Ha. apply repeat_spec in Ha. subst a.
  pose proof (in_combine_r _ _ _ _ Hab) as Hb.
  rewrite Forall_forall in Hlm. destruct (Hlm b Hb) as [_ Hle].
  apply Qltb_nlt.
  assert (E : - DEFECT_DROP_THRESHOLD * 100 == -(10)) by reflexivity.
  rewrite E. lra.
Qed.

(** X9. A spectrum with the same non-negative transmission at every one of at
    least 20 strictly increasing wavelengths has no defect. *)
Theorem detect_defects_flat (wavelength : list Q) (c : Q) :
  StronglySorted Qlt wavelength -> (20 <= length wavelength)%nat -> 0 <= c ->
  _detect_defects wavelength (repeat c (length wavelength)) = Ok [].
Proof.
  intros Hs H20 Hc. unfold _detect_defects.
  rewrite (gradient_pass_flat _ c Hs H20). cbn [bind].
  rewrite (absorption_bands_flat _ _ H20 Hc). reflexivity.
Qed.

Lemma detect_defects_flat_witness :
  _detect_defects flat_wavelength (repeat 85 (length flat_wavelength)) = Ok [].
Proof.
  apply (detect_defects_flat flat_wavelength 85).
  - vm_compute. repeat constructor.
  - vm_compute. repeat constructor.
  - vm_compute. discriminate.
Defined.









(** * The batch analysis *)

Lemma seen_In (x : string) (seen : list string) :
  existsb (String.eqb x) seen = true <-> In x seen.
Proof.
  rewrite existsb_exists. split.
  - intros (y & Hy & E). apply String.eqb_eq in E. subst. exact Hy.
  - intro H. exists x. split; [exact H|apply String.eqb_refl].
Qed.

Lemma unique_from_In (l seen : list string) (x : string) :
  In x (unique_from seen l) <-> In x l /\ ~ In x seen.
Proof.
  revert seen. induction l as [|y l IH]; intro seen; simpl.
  - tauto.
  - destruct (existsb (String.eqb y) seen) eqn:E.
    + apply seen_In in E. rewrite IH. split.
      * intros [H1 H2]. auto.
      * intros [[->|H1] H2]; [contradiction|auto].
    + assert (Hy : ~ In y seen).
      { intro H. apply seen_In in H. congruence. }
      simpl. rewrite IH. simpl. split.
      * intros [->|[H1 H2]]; [auto|]. split; [auto|tauto].
      * intros [[->|H1] H2]; [auto|].
        destruct (string_dec y x) as [->|Hne]; [auto|].
        right. split; [exact H1|]. intros [E'|H3]; [congruence|contradiction].
Qed.

Lemma unique_from_NoDup (l seen : list string) : NoDup (unique_from seen l).
Proof.
  revert seen. induction l as [|y l IH]; intro seen; simpl; [constructor|].
  destruct (existsb (String.eqb y) seen); [apply IH|].
  constructor; [|apply IH]. intro H. apply unique_from_In in H.
  destruct H as [_ H]. apply H. left. reflexivity.
Qed.

Lemma unique_In (l : list string) (x : string) : In x (unique l) <-> In x l.
Proof. unfold unique. rewrite unique_from_In. simpl. tauto. Qed.

Lemma analyze_sample_Ok (sqrt : Q -> Q) (self : QualityClassifier)
  (df : DataFrame) (sample : string) (row : ResultRow.t) :
  analyze_sample sqrt self df sample = Ok row <->
  exists first rest m,
    sample_data df sample = first :: rest /\
    calculate_metrics sqrt self
      (map DataRow.wavelength_nm (sample_data df sample))
      (map DataRow.transmission_percent (sample_data df sample))
      sample (DataRow.material_type first) = Ok m /\
    row = result_row m.
Proof.
  unfold analyze_sample. split.
  - intro H. inv_bind H. inv_bind H. injection H as <-.
    destruct (sample_data df sample) as [|first rest] eqn:E; [discriminate|].
    simpl in Hx. injection Hx as <-. exists first, rest, x0. auto.
  - intros (first & rest & m & E & Hm & ->). rewrite E in Hm |- *.
    change (Np.getitem (map DataRow.material_type (first :: rest)) 0)
      with (@Ok string (DataRow.material_type first)).
    cbn [bind]. rewrite Hm. reflexivity.
Qed.

Lemma analyze_sample_returns_iff (sqrt : Q -> Q) (self : QualityClassifier)
  (df : DataFrame) (sample : string) :
  (exists row, analyze_sample sqrt self df sample = Ok row) <->
  (20 <= length (sample_data df sample))%nat.
Proof.
  split.
  - intros (row & H). apply analyze_sample_Ok in H.
    destruct H as (first & rest & m & _ & Hm & _).
    apply calculate_metrics_Ok_inv in Hm.
    destruct Hm as (_ & _ & locs & _ & _ & Hd & _).
    apply detect_defects_Ok_inv in Hd. rewrite !length_map in Hd. tauto.
  - intro H20.
    destruct (sample_data df sample) as [|first rest] eqn:E; [simpl in H20; lia|].
    destruct (calculate_metrics_total sqrt self
                (map DataRow.wavelength_nm (first :: rest))
                (map DataRow.transmission_percent (first :: rest))
                sample (DataRow.material_type first)) as (m & Hm).
    + rewrite !length_map. reflexivity.
    + rewrite length_map. exact H20.
    + exists (result_row m). apply analyze_sample_Ok.
      exists first, rest, m. rewrite E. auto.
Qed.

Lemma analyze_sample_sample_id (sqrt : Q -> Q) (self : QualityClassifier)
  (df : DataFrame) (sample : string) (row : ResultRow.t) :
  analyze_sample sqrt self df sample = Ok row -> ResultRow.sample_id row = sample.
Proof.
  intro H. apply analyze_sample_Ok in H.
  destruct H as (first & rest & m & _ & Hm & ->).
  apply calculate_metrics_Ok_inv in Hm.
  destruct Hm as (? & ? & ? & _ & _ & _ & ->). reflexivity.
Qed.

Lemma Forall2_map_eq {A B : Type} (f : B -> A) (l : list A) (l' : list B) :
  Forall2 (fun x y => f y = x) l l' -> map f l' = l.
Proof.
  induction 1 as [|x y l l' E _ IH]; simpl; [reflexivity|]. rewrite E, IH.
  reflexivity.
Qed.

(** X11. On a frame with a [sample_id] column the batch returns one row per
    distinct sample identifier, in order of first appearance in the frame;
    each row is the record of the rows that carry its identifier, with the
    material of the first of them. *)
Theorem analyze_dataframe_one_row_per_sample (sqrt : Q -> Q)
  (self : QualityClassifier) (df : DataFrame) (table : list ResultRow.t) :
  has_sample_id df = true ->
  analyze_dataframe sqrt self df = Ok table ->
  map ResultRow.sample_id table = unique (map DataRow.sample_id (rows df)) /\
  NoDup (map ResultRow.sample_id table) /\
  (forall s, In s (map ResultRow.sample_id table) <->
             exists r, In r (rows df) /\ DataRow.sample_id r = s) /\
  Forall (fun row =>
            exists first rest m,
              filter (fun r => String.eqb (DataRow.sample_id r)
                                 (ResultRow.sample_id row)) (rows df)
              = first :: rest /\
              calculate_metrics sqrt self
                (map DataRow.wavelength_nm (first :: rest))
                (map DataRow.transmission_percent (first :: rest))
                (ResultRow.sample_id row) (DataRow.material_type first) = Ok m /\
              row = result_row m)
         table.
Proof.
  intros Hcol H. unfold analyze_dataframe in H. rewrite Hcol in H. cbn [bind] in H.
  apply mapM_Forall2 in H.
  assert (Hids : map ResultRow.sample_id table = unique (map DataRow.sample_id (rows df))).
  { apply Forall2_map_eq. eapply Forall2_impl; [|exact H].
    intros s row Hrow. eapply analyze_sample_sample_id. exact Hrow. }
  split; [exact Hids|]. split; [rewrite Hids; apply unique_from_NoDup|].
  split.
  - intro s. rewrite Hids, unique_In, in_map_iff.
    split; intros (r & H1 & H2); exists r; auto.
  - clear Hids. induction H as [|s row ids table Hrow _ IH]; constructor; [|exact IH].
    pose proof (analyze_sample_sample_id _ _ _ _ _ Hrow) as Es.
    apply analyze_sample_Ok in Hrow.
    destruct Hrow as (first & rest & m & E & Hm & ->).
    unfold sample_data in E, Hm. rewrite Hcol in E, Hm. rewrite E in Hm.
    exists first, rest, m. rewrite Es, E. auto.
Qed.

Lemma analyze_dataframe_one_row_per_sample_witness :
  exists table,
    analyze_dataframe sqrt_approx default_classifier two_sample_frame = Ok table /\
    map ResultRow.sample_id table
    = unique (map DataRow.sample_id (rows two_sample_frame)) /\
    map ResultRow.sample_id table = ["b"; "a"]%string /\
    map ResultRow.pass_qc table = [true; false].
Proof.
  eexists. split; [vm_compute; reflexivity|].
  split; [|split; reflexivity].
  apply (analyze_dataframe_one_row_per_sample sqrt_approx default_classifier
           two_sample_frame).
  - reflexivity.
  - vm_compute. reflexivity.
Defined.

Lemma mapM_total_inv {A B : Type} (f : A -> result B) (l : list A) (ys : list B) :
  mapM f l = Ok ys -> Forall (fun x => exists y, f x = Ok y) l.
Proof.
  intro H. apply mapM_Forall2 in H.
  induction H; constructor; eauto.
Qed.

Lemma analyze_sample_raw (sqrt : Q -> Q) (self : QualityClassifier)
  (df : DataFrame) (sample : string) :
  raises_only_raw (analyze_sample sqrt self df sample).
Proof.
  unfold analyze_sample.
  apply raises_only_raw_bind; [auto with raw|intro material].
  apply raises_only_raw_bind; [apply calculate_metrics_raw|intro m].
  auto with raw.
Qed.

(** X12. The batch is all or nothing.  On a frame with a [sample_id] column it
    returns a table exactly when every sample has at least 20 rows; a
    single shorter sample makes the whole call raise a [ValueError] or an
    [IndexError] and no table is returned. *)
Theorem analyze_dataframe_all_or_nothing (sqrt : Q -> Q)
  (self : QualityClassifier) (df : DataFrame) :
  has_sample_id df = true ->
  ((exists table, analyze_dataframe sqrt self df = Ok table) <->
   forall r, In r (rows df) ->
     (20 <= length (filter (fun r' => String.eqb (DataRow.sample_id r')
                                        (DataRow.sample_id r)) (rows df)))%nat) /\
  (forall e, analyze_dataframe sqrt self df = Err e -> raw_exception e).
Proof.
  intro Hcol. split.
  - unfold analyze_dataframe. rewrite Hcol. cbn [bind]. split.
    + intros (table & H) r Hr. apply mapM_total_inv in H.
      rewrite Forall_forall in H.
      assert (Hs : In (DataRow.sample_id r) (unique (map DataRow.sample_id (rows df)))).
      { apply unique_In. apply in_map. exact Hr. }
      specialize (H _ Hs). apply analyze_sample_returns_iff in H.
      unfold sample_data in H. rewrite Hcol in H. exact H.
    + intro Hall. apply mapM_total. apply Forall_forall. intros s Hs.
      apply unique_In, in_map_iff in Hs. destruct Hs as (r & <- & Hr).
      apply analyze_sample_returns_iff. unfold sample_data. rewrite Hcol.
      apply Hall. exact Hr.
  - unfold analyze_dataframe. rewrite Hcol. cbn [bind].
    apply mapM_raw. intro s. apply analyze_sample_raw.
Qed.

Lemma analyze_dataframe_all_or_nothing_witness :
  (exists table,
     analyze_dataframe sqrt_approx default_classifier two_sample_frame = Ok table) <->
  forall r, In r (rows two_sample_frame) ->
    (20 <= length (filter (fun r' => String.eqb (DataRow.sample_id r')
                                       (DataRow.sample_id r))
                          (rows two_sample_frame)))%nat.
Proof.
  apply (proj1 (analyze_dataframe_all_or_nothing sqrt_approx default_classifier
                  two_sample_frame eq_refl)).
Defined.



(** * The configured thresholds *)

(** X14. The visible threshold only gates the pass: two classifiers with the
    same bandwidth threshold give a spectrum records that agree in every
    measured field, and a record that passes under the higher visible
    threshold passes under the lower one. *)
Theorem visible_threshold_only_gates_pass (sqrt : Q -> Q)
  (c1 c2 : QualityClassifier) (wavelength transmission : list Q)
  (sid mat : string) (m1 m2 : QualityMetrics) :
  bandwidth_threshold c1 = bandwidth_threshold c2 ->
  calculate_metrics sqrt c1 wavelength transmission sid mat = Ok m1 ->
  calculate_metrics sqrt c2 wavelength transmission sid mat = Ok m2 ->
  peak_transmission m1 = peak_transmission m2 /\
  avg_transmission_visible m1 = avg_transmission_visible m2 /\
  avg_transmission_full m1 = avg_transmission_full m2 /\
  transmission_bandwidth_nm m1 = transmission_bandwidth_nm m2 /\
  uniformity_score m1 = uniformity_score m2 /\
  defect_locations m1 = defect_locations m2 /\
  defect_count m1 = defect_count m2 /\
  (visible_threshold c1 <= visible_threshold c2 ->
   pass_qc m2 = true -> pass_qc m1 = true).
Proof.
  intros Hbw H1 H2. apply calculate_metrics_Ok_inv in H1, H2.
  destruct H1 as (p1 & b1 & l1 & Hp1 & Hb1 & Hd1 & ->).
  destruct H2 as (p2 & b2 & l2 & Hp2 & Hb2 & Hd2 & ->).
  rewrite Hbw in Hb1.
  assert (p1 = p2) by congruence. assert (b1 = b2) by congruence.
  assert (l1 = l2) by congruence. subst p2 b2 l2.
  cbn [peak_transmission avg_transmission_visible avg_transmission_full
       transmission_bandwidth_nm uniformity_score defect_locations
       defect_count pass_qc].
  repeat (split; [reflexivity|]).
  intros Hle Hpass. apply andb_true_iff in Hpass. destruct Hpass as [Ha Hz].
  apply andb_true_iff. split; [|exact Hz].
  apply Qgeb_ge in Ha. apply Qgeb_ge. lra.
Qed.

Lemma visible_threshold_only_gates_pass_witness :
  exists m1 m2,
    calculate_metrics sqrt_approx default_classifier
      flat_wavelength flat_transmission "s" "m" = Ok m1 /\
    calculate_metrics sqrt_approx strict_classifier
      flat_wavelength flat_transmission "s" "m" = Ok m2 /\
    avg_transmission_visible m1 = avg_transmission_visible m2 /\
    defect_locations m1 = defect_locations m2.
Proof.
  eexists. eexists.
  split; [vm_compute; reflexivity|].
  split; [vm_compute; reflexivity|].
  assert (H := visible_threshold_only_gates_pass sqrt_approx
                 default_classifier strict_classifier
                 flat_wavelength flat_transmission "s" "m").
  refine (let H' := H _ _ eq_refl _ _ in
          conj (proj1 (proj2 H'))
               (proj1 (proj2 (proj2 (proj2 (proj2 (proj2 H'))))))).
  - vm_compute. reflexivity.
  - vm_compute. reflexivity.
Defined.

(** * The data loader *)

Lemma filter_nonempty_In {A : Type} (f : A -> bool) (l : list A) :
  filter f l <> [] <-> exists x, In x l /\ f x = true.
Proof.
  split.
  - intro H. destruct (filter f l) as [|x rest] eqn:E; [congruence|].
    exists x. apply filter_In. rewrite E. left. reflexivity.
  - intros (x & Hx & Hf) E.
    assert (Hin : In x (filter f l)) by (apply filter_In; auto).
    rewrite E in Hin. contradiction.
Qed.

Lemma filter_idem {A : Type} (f : A -> bool) (l : list A) :
  filter f (filter f l) = filter f l.
Proof.
  induction l as [|x l IH]; simpl; [reflexivity|].
  destruct (f x) eqn:E; simpl; [rewrite E, IH|]; auto.
Qed.

(** X15. Once a frame with a [sample_id] column is loaded, [get_sample]
    succeeds exactly on the identifiers that [list_samples] returns: it
    then returns the rows that carry the identifier, at least one and in
    their order in the frame, and for any other identifier it raises
    [ValueError].  Before any load both raise [ValueError]. *)
Theorem get_sample_iff_listed (self : SpectroscopyDataLoader) (s : string) :
  (_loaded_data self = None ->
   get_sample self s = Err ValueError /\ list_samples self = Err ValueError) /\
  (forall df,
     _loaded_data self = Some df -> has_sample_id df = true ->
     exists ids,
       list_samples self = Ok ids /\ NoDup ids /\
       (In s ids ->
        exists first rest,
          filter (fun r => String.eqb (DataRow.sample_id r) s) (rows df)
          = first :: rest /\
          get_sample self s = Ok (mkDataFrame true (first :: rest))) /\
       (~ In s ids -> get_sample self s = Err ValueError)).
Proof.
  unfold get_sample, list_samples. split.
  - intros ->. auto.
  - intros df -> Hcol. rewrite Hcol. simpl negb. cbv iota.
    exists (unique (map DataRow.sample_id (rows df))).
    split; [reflexivity|]. split; [apply unique_from_NoDup|].
    set (f := fun r => String.eqb (DataRow.sample_id r) s).
    assert (Hiff : In s (unique (map DataRow.sample_id (rows df))) <-> filter f (rows df) <> []).
    { rewrite unique_In, in_map_iff, filter_nonempty_In.
      split; intros (r & H1 & H2); exists r.
      - split; [exact H2|]. unfold f. rewrite H1. apply String.eqb_refl.
      - split; [|exact H1]. apply String.eqb_eq. exact H2. }
    split.
    + intro Hin. apply Hiff in Hin.
      destruct (filter f (rows df)) as [|first rest]; [congruence|].
      exists first, rest. auto.
    + intro Hnot. destruct (filter f (rows df)) as [|first rest] eqn:E;
        [reflexivity|].
      exfalso. apply Hnot, Hiff. discriminate.
Qed.

Lemma get_sample_iff_listed_witness :
  exists ids,
    list_samples (mkSpectroscopyDataLoader true (Some two_sample_frame)) = Ok ids /\
    NoDup ids /\
    (In "a"%string ids ->
     exists first rest,
       filter (fun r => String.eqb (DataRow.sample_id r) "a") (rows two_sample_frame)
       = first :: rest /\
       get_sample (mkSpectroscopyDataLoader true (Some two_sample_frame)) "a"
       = Ok (mkDataFrame true (first :: rest))) /\
    (~ In "a"%string ids ->
     get_sample (mkSpectroscopyDataLoader true (Some two_sample_frame)) "a"
     = Err ValueError).
Proof.
  apply (proj2 (get_sample_iff_listed
                  (mkSpectroscopyDataLoader true (Some two_sample_frame))
                  "a"%string) two_sample_frame); reflexivity.
Defined.



Lemma unique_from_constant (s : string) (l seen : list string) :
  Forall (fun x => x = s) l ->
  unique_from seen l = if existsb (String.eqb s) seen then []
                       else match l with [] => [] | _ :: _ => [s] end.
Proof.
  intro H. revert seen. induction H as [|x l -> _ IH]; intro seen; simpl.
  - destruct (existsb (String.eqb s) seen); reflexivity.
  - destruct (existsb (String.eqb s) seen) eqn:E.
    + rewrite IH, E. reflexivity.
    + rewrite IH. simpl. rewrite String.eqb_refl. reflexivity.
Qed.

(** X17. Analysing one extracted sample gives the row of the batch: the
    frame that [get_sample] returns for an identifier is analysed to exactly
    the one row that the loop of [analyze_dataframe] computes for that
    identifier on the whole frame. *)
Theorem analyze_extracted_sample (sqrt : Q -> Q) (classifier : QualityClassifier)
  (self : SpectroscopyDataLoader) (df extracted : DataFrame) (s : string) :
  _loaded_data self = Some df ->
  get_sample self s = Ok extracted ->
  analyze_dataframe sqrt classifier extracted =
  (row <- analyze_sample sqrt classifier df s ;; Ok [row]) /\
  forall table,
    analyze_dataframe sqrt classifier df = Ok table ->
    exists row,
      In row table /\ ResultRow.sample_id row = s /\
      analyze_dataframe sqrt classifier extracted = Ok [row].
Proof.
  intros Hload Hget. unfold get_sample in Hget. rewrite Hload in Hget.
  destruct (has_sample_id df) eqn:Hcol; [|discriminate]. simpl negb in Hget.
  cbv iota in Hget.
  set (f := fun r => String.eqb (DataRow.sample_id r) s) in *.
  destruct (filter f (rows df)) as [|first rest] eqn:E; [discriminate|].
  injection Hget as <-.
  assert (Hids : unique (map DataRow.sample_id (first :: rest)) = [s]).
  { unfold unique. rewrite (unique_from_constant s); [reflexivity|].
    apply Forall_map. apply Forall_forall. intros r Hr. rewrite <- E in Hr.
    apply filter_In in Hr. destruct Hr as [_ Hr]. apply String.eqb_eq. exact Hr. }
  assert (Hsame : analyze_sample sqrt classifier
                    (mkDataFrame true (first :: rest)) s
                  = analyze_sample sqrt classifier df s).
  { unfold analyze_sample, sample_data. rewrite Hcol. cbn [has_sample_id rows].
    fold f. rewrite <- E, filter_idem. reflexivity. }
  assert (Hone : analyze_dataframe sqrt classifier (mkDataFrame true (first :: rest))
                 = (row <- analyze_sample sqrt classifier df s ;; Ok [row])).
  { unfold analyze_dataframe. cbn [has_sample_id rows bind]. rewrite Hids.
    cbn [mapM]. rewrite Hsame.
    destruct (analyze_sample sqrt classifier df s); reflexivity. }
  split; [exact Hone|].
  intros table Htable. unfold analyze_dataframe in Htable.
  rewrite Hcol in Htable. cbn [bind] in Htable.
  apply mapM_Forall2 in Htable.
  assert (Hs : In s (unique (map DataRow.sample_id (rows df)))).
  { apply unique_In, in_map_iff. exists first.
    assert (Hf : In first (filter f (rows df))) by (rewrite E; left; reflexivity).
    apply filter_In in Hf. destruct Hf as [Hin Hf].
    split; [apply String.eqb_eq; exact Hf|exact Hin]. }
  clear - Htable Hs Hone.
  induction Htable as [|x row ids table Hrow _ IH]; [contradiction|].
  destruct Hs as [->|Hs].
  - exists row. split; [left; reflexivity|].
    split; [eapply analyze_sample_sample_id; exact Hrow|].
    rewrite Hone, Hrow. reflexivity.
  - destruct (IH Hs) as (row' & Hin & Hid & Hrun).
    exists row'. split; [right; exact Hin|]. auto.
Qed.

Lemma analyze_extracted_sample_witness :
  exists extracted,
    get_sample (mkSpectroscopyDataLoader true (Some two_sample_frame)) "a"
    = Ok extracted /\
    analyze_dataframe sqrt_approx default_classifier extracted =
    (row <- analyze_sample sqrt_approx default_classifier two_sample_frame "a" ;;
     Ok [row]).
Proof.
  eexists. split; [vm_compute; reflexivity|].
  apply (proj1 (analyze_extracted_sample sqrt_approx default_classifier
                  (mkSpectroscopyDataLoader true (Some two_sample_frame))
                  two_sample_frame _ "a"%string eq_refl eq_refl)).
Defined.
